(** * A QR scanner core in Rocq

    Shallow embedding of [lib/scan-preprocessing.ts] (bitmap filters and the
    multi-strategy decoding pipeline) and [lib/scan-content-utils.ts]
    (content classification, vCard parsing, action synthesis), followed by
    the properties established about them.

    Conventions.
    - A JavaScript Number that only ever holds an integer (array indices,
      channel sums, kernel sums) is a [Z].  Where the source computes with
      fractions (the luma weights, the contrast factor) the embedding uses
      binary64 floats, which is what a Number is.
    - A [Uint8ClampedArray] is a [list Z] of bytes; a store clamps, a store
      outside the array is dropped (stdpp's list insert does the same).
    - A JavaScript string is the list of its UTF-16 code units. *)

From Stdlib Require Import ZArith NArith QArith List Floats Uint63 Bool String Ascii Lia.
From stdpp Require Import base list gmap.
Set Warnings "-inexact-float".
Local Open Scope Z_scope.

(** ** JavaScript numbers *)

Module Number.

(** The Number read from a byte of a typed array. *)
Definition num (z : Z) : float := PrimFloat.of_uint63 (Uint63.of_Z z).

Definition two52 : float := 0x1p52%float.

(** The integer held by an integral float in [0, 2^52): adding 2^52 moves
    it into the low bits of the significand. *)
Definition int_of_float (y : float) : int :=
  Uint63.sub
    (PrimFloat.normfr_mantissa (fst (PrimFloat.frshiftexp (y + two52)%float)))
    4503599627370496%uint63.

(** [Math.round]: the nearest integer, a tie going towards +infinity.
    [(x + 2^52) - 2^52] is the nearest integer with ties to even, and the
    difference to [x] is exact, so a tie that went down is seen and fixed. *)
Definition Math_round (x : float) : float :=
  if PrimFloat.ltb (PrimFloat.abs x) two52 then
    let r := if PrimFloat.ltb x 0
             then ((x - two52) + two52)%float
             else ((x + two52) - two52)%float in
    if PrimFloat.eqb (x - r) 0.5 then (r + 1)%float else r
  else x.

(** [Math.min] and [Math.max] (NaN is contagious; the order of the two
    zeros plays no role below). *)
Definition Math_min (a b : float) : float :=
  if is_nan a || is_nan b then nan else if PrimFloat.ltb b a then b else a.

Definition Math_max (a b : float) : float :=
  if is_nan a || is_nan b then nan else if PrimFloat.ltb a b then b else a.

(** ToUint8Clamp, the conversion of a store into a [Uint8ClampedArray]:
    NaN and everything up to 0 give 0, everything from 255 gives 255, the
    rest is rounded to the nearest integer, ties to even. *)
Definition ToUint8Clamp (x : float) : int :=
  if PrimFloat.ltb 0 x then
    if PrimFloat.ltb x 255 then int_of_float ((x + two52) - two52)%float
    else 255%uint63
  else 0%uint63.

(** The same conversion for a Number that holds an integer. *)
Definition clamp8 (v : Z) : Z := Z.max 0 (Z.min 255 v).

End Number.

(** ** lib/scan-preprocessing.ts *)

Module Preprocessing.
Import Number.

Record ImageData := mkImageData {
  data : list Z;
  width : Z;
  height : Z
}.

(** What the platform guarantees of every [ImageData]: positive sides, four
    bytes per pixel. *)
Definition is_byte (v : Z) : Prop := 0 <= v <= 255.

Record well_formed (im : ImageData) : Prop := {
  wf_width : 0 < width im;
  wf_height : 0 < height im;
  wf_length : Z.of_nat (length (data im)) = width im * height im * 4;
  wf_bytes : Forall is_byte (data im)
}.

(** [a[i]] and [a[i] = v] on a [Uint8ClampedArray].  Every read of the
    filters is inside the array when the bitmap is well formed. *)
Definition get (a : list Z) (i : Z) : Z :=
  if i <? 0 then 0 else a !!! Z.to_nat i.

Definition store (a : list Z) (i : Z) (v : Z) : list Z :=
  if i <? 0 then a else <[Z.to_nat i := clamp8 v]> a.

Definition store_num (a : list Z) (i : Z) (x : float) : list Z :=
  if i <? 0 then a else <[Z.to_nat i := Uint63.to_Z (ToUint8Clamp x)]> a.

(** The values of [i] in [for (let i = 0; i < len; i += 4)]. *)
Definition for_step4 (len : Z) : list Z :=
  (λ k, 4 * k) <$> seqZ 0 ((len + 3) / 4).

(** *** enhancedContrast *)

Definition contrast : float := 1.5%float.
Definition factor : float :=
  ((259 * (contrast + 255)) / (255 * (259 - contrast)))%float.

Definition stretch (v : Z) : float :=
  Math_min 255 (Math_max 0 (factor * (num v - 128) + 128)%float).

Definition enhancedContrast (imageData : ImageData) : ImageData :=
  let a := data imageData in
  let a :=
    foldl (λ a i,
      let a := store_num a i (stretch (get a i)) in
      let a := store_num a (i + 1) (stretch (get a (i + 1))) in
      store_num a (i + 2) (stretch (get a (i + 2))))
      a (for_step4 (Z.of_nat (length a))) in
  mkImageData a (width imageData) (height imageData).

(** *** adaptiveHistogram (grayscale) *)

(** [Math.round(0.299 * r + 0.587 * g + 0.114 * b)], in binary64 as the
    source computes it; the result is an integer. *)
Definition luma_num (r g b : Z) : float :=
  Math_round (0.299 * num r + 0.587 * num g + 0.114 * num b)%float.

Definition luma (r g b : Z) : Z := Uint63.to_Z (int_of_float (luma_num r g b)).

Definition gray_at (a : list Z) (i : Z) : Z :=
  luma (get a i) (get a (i + 1)) (get a (i + 2)).

Definition store3 (a : list Z) (i : Z) (r g b : Z) : list Z :=
  store (store (store a i r) (i + 1) g) (i + 2) b.

Definition adaptiveHistogram (imageData : ImageData) : ImageData :=
  let a := data imageData in
  let a :=
    foldl (λ a i, let gray := gray_at a i in store3 a i gray gray gray)
      a (for_step4 (Z.of_nat (length a))) in
  mkImageData a (width imageData) (height imageData).

(** *** binaryThreshold *)

(** [gray > sum / pixels].  The quotient is kept exact: the binary64
    quotient is the exact one correctly rounded, and an integer in 0..255
    compares with both in the same way as long as there are fewer than
    2^44 pixels, far more than a typed array can hold. *)
Definition above (gray : Z) (threshold : Q) : bool :=
  negb (Qle_bool (inject_Z gray) threshold).

Definition binaryThreshold (imageData : ImageData) : ImageData :=
  let a := data imageData in
  let len := Z.of_nat (length a) in
  let pixels : Q := Qmake len 4 in
  let sum := foldl (λ sum i, sum + gray_at a i) 0 (for_step4 len) in
  let threshold : Q := Qdiv (inject_Z sum) pixels in
  let a :=
    foldl (λ a i,
      let gray := gray_at a i in
      let binary := if above gray threshold then 255 else 0 in
      store3 a i binary binary binary)
      a (for_step4 len) in
  mkImageData a (width imageData) (height imageData).

(** *** sharpening *)

Definition kernel : list Z := [-1; -1; -1; -1; 9; -1; -1; -1; -1].

(** The two inner loops: the weighted sums over the 3x3 window around
    [(x, y)], read from the array [a] that is being written. *)
Definition convolve (a : list Z) (w x y : Z) : Z * Z * Z :=
  foldl (λ acc ky,
    foldl (λ '(r, g, b) kx,
      let idx := ((y + ky) * w + (x + kx)) * 4 in
      let weight := kernel !!! Z.to_nat ((ky + 1) * 3 + (kx + 1)) in
      (r + get a idx * weight,
       g + get a (idx + 1) * weight,
       b + get a (idx + 2) * weight))
      acc (seqZ (-1) 3))
    (0, 0, 0) (seqZ (-1) 3).

Definition sharpening (imageData : ImageData) : ImageData :=
  let a := data imageData in
  let w := width imageData in
  let h := height imageData in
  let a :=
    foldl (λ a y,
      foldl (λ a x,
        let '(r, g, b) := convolve a w x y in
        let idx := (y * w + x) * 4 in
        store3 a idx (Z.min 255 (Z.max 0 r)) (Z.min 255 (Z.max 0 g))
                     (Z.min 255 (Z.max 0 b)))
        a (seqZ 1 (w - 1 - 1)))
      a (seqZ 1 (h - 1 - 1)) in
  mkImageData a (width imageData) (height imageData).

(** *** colorInversion *)

Definition colorInversion (imageData : ImageData) : ImageData :=
  let a := data imageData in
  let a :=
    foldl (λ a i,
      let a := store a i (255 - get a i) in
      let a := store a (i + 1) (255 - get a (i + 1)) in
      store a (i + 2) (255 - get a (i + 2)))
      a (for_step4 (Z.of_nat (length a))) in
  mkImageData a (width imageData) (height imageData).

(** *** morphological (erosion) *)

(** The two inner loops: the least luma over the 3x3 window around
    [(x, y)], read from the snapshot [temp]. *)
Definition window_min (temp : list Z) (w x y : Z) : Z :=
  foldl (λ minVal dy,
    foldl (λ minVal dx,
      let idx := ((y + dy) * w + (x + dx)) * 4 in
      let gray := gray_at temp idx in
      Z.min minVal gray)
      minVal (seqZ (-1) 3))
    255 (seqZ (-1) 3).

Definition morphological (imageData : ImageData) : ImageData :=
  let a := data imageData in
  let w := width imageData in
  let h := height imageData in
  let temp := a in
  let a :=
    foldl (λ a y,
      foldl (λ a x,
        let minVal := window_min temp w x y in
        let idx := (y * w + x) * 4 in
        store3 a idx minVal minVal minVal)
        a (seqZ 1 (w - 1 - 1)))
      a (seqZ 1 (h - 1 - 1)) in
  mkImageData a (width imageData) (height imageData).

(** *** processingStrategies *)

Record ProcessingStrategy := mkStrategy {
  name : string;
  progress : Z;
  fn : ImageData → ImageData
}.

Definition processingStrategies : list ProcessingStrategy :=
  [ mkStrategy "Direct Detection" 65 (λ data, data);
    mkStrategy "Enhanced Contrast" 70 enhancedContrast;
    mkStrategy "Adaptive Histogram" 75 adaptiveHistogram;
    mkStrategy "Binary Threshold" 80 binaryThreshold;
    mkStrategy "Sharpening" 85 sharpening;
    mkStrategy "Color Inversion" 90 colorInversion;
    mkStrategy "Morphological" 95 morphological ].

(** *** processImage

    The collaborators are outside of the file: the canvas, the progress
    callback, the decoder [jsQR], the console, and whatever runs while
    [processImage] waits for its timer.  Each of them may read and change
    a world [W] that the pipeline itself never looks at, and the two that
    are called inside the [try] block may throw.

    The [ImageData] passed in is one object, which the caller and its
    callback hold as well, and which the first strategy hands to the
    decoder as it is: its width and its height are read-only, the bytes of
    its buffer are not.  [processImage] makes no copy of it; a filter
    copies it when it is called, and not before.  So the bytes of that
    buffer are part of what the collaborators act on.  The table of
    strategies is the constant that the file defines. *)

Record Point := mkPoint { x : float; y : float }.

Record Location := mkLocation {
  topLeftCorner : Point;
  topRightCorner : Point;
  bottomLeftCorner : Point;
  bottomRightCorner : Point
}.

(** What [jsQR] returns on success; [processImage] keeps two fields. *)
Record QRCode := mkQRCode {
  code_binaryData : list Z;
  code_data : list N;
  code_location : Location
}.

Record QRResult := mkQRResult {
  result_data : list N;
  result_location : Location
}.

Inductive exn := Error (message : string).

(** How a call ends. *)
Inductive completion (A : Type) :=
  | Returns (a : A)
  | Throws (e : exn).
Arguments Returns {A} a.
Arguments Throws {A} e.

(** [canvas.getContext('2d')] gives a context or null. *)
Inductive CanvasRenderingContext2D := context2d.

Record HTMLCanvasElement := mkCanvas {
  getContext : option CanvasRenderingContext2D
}.

(** What the collaborators act on: their world, and the bytes of the
    buffer of the [ImageData] that was passed in, as they are now. *)
Record heap (W : Type) := mkHeap {
  world : W;
  source_bytes : list Z
}.
Arguments mkHeap {W} world source_bytes.
Arguments world {W} h.
Arguments source_bytes {W} h.

Section ProcessImage.
Context {W : Type}.
Variable onProgress : Z → string → heap W → heap W * completion unit.
Variable jsQR : list Z → Z → Z → heap W → heap W * completion (option QRCode).
Variable console_warn : string → exn → heap W → heap W.
(** What happens while [await new Promise(resolve => setTimeout(resolve,
    50))] waits. *)
Variable pause : heap W → heap W.

(** The object behind [imageData], read now. *)
Definition current (wd ht : Z) (s : heap W) : ImageData :=
  mkImageData (source_bytes s) wd ht.

(** The [for] loop over the strategies that are left; [wd] and [ht] are the
    width and the height of [imageData]. *)
Fixpoint attempt (strategies : list ProcessingStrategy) (wd ht : Z)
    (s : heap W) : heap W * option QRResult :=
  match strategies with
  | [] => (s, None)
  | strategy :: rest =>
      let '(s, reported) := onProgress (progress strategy) (name strategy) s in
      match reported with
      | Throws error =>
          attempt rest wd ht (console_warn (name strategy) error s)
      | Returns _ =>
          let processedData := fn strategy (current wd ht s) in
          let '(s, decoded) :=
            jsQR (data processedData) (width processedData)
                 (height processedData) s in
          match decoded with
          | Throws error =>
              attempt rest wd ht (console_warn (name strategy) error s)
          | Returns (Some result) =>
              (s, Some (mkQRResult (code_data result) (code_location result)))
          | Returns None => attempt rest wd ht (pause s)
          end
      end
  end.

Definition processImage (canvas : HTMLCanvasElement) (imageData : ImageData)
    (w : W) : heap W * completion (option QRResult) :=
  let s := mkHeap w (data imageData) in
  match getContext canvas with
  | None => (s, Throws (Error "Canvas context not available"))
  | Some ctx =>
      let '(s, found) :=
        attempt processingStrategies (width imageData) (height imageData) s in
      (s, Returns found)
  end.
End ProcessImage.

(** *** validateFile *)

(** What [validateFile] reads of a [File], and what it returns. *)
Record File := mkFile { type : string; size : Z }.

Record FileValidation := mkValidation {
  isValid : bool;
  error : option string
}.

Definition allowedTypes : list string :=
  ["image/png"; "image/jpeg"; "image/jpg"; "image/gif"]%string.

Definition maxSize : Z := 10 * 1024 * 1024.

Definition validateFile (file : File) : FileValidation :=
  if negb (existsb (String.eqb (type file)) allowedTypes) then
    mkValidation false
      (Some "Invalid file type. Please use PNG, JPG, or GIF images."%string)
  else if size file >? maxSize then
    mkValidation false
      (Some "File size too large. Please use images smaller than 10MB."%string)
  else mkValidation true None.

End Preprocessing.

(** ** JavaScript strings *)

Module JSString.

(** A string is the list of its UTF-16 code units. *)
Abbreviation jsstring := (list N).

(** The string of an ASCII literal. *)
Definition js (s : string) : list N := N_of_ascii <$> list_ascii_of_string s.

Definition code (a : ascii) : N := N_of_ascii a.

(** WhiteSpace and LineTerminator of ECMAScript: what [trim] strips and
    what [\s] matches. *)
Definition is_space (c : N) : bool :=
  ((9 <=? c) && (c <=? 13) || (c =? 32) || (c =? 160) || (c =? 5760)
   || (8192 <=? c) && (c <=? 8202) || (c =? 8232) || (c =? 8233)
   || (c =? 8239) || (c =? 8287) || (c =? 12288) || (c =? 65279))%N.

Definition is_line_terminator (c : N) : bool :=
  ((c =? 10) || (c =? 13) || (c =? 8232) || (c =? 8233))%N.

Definition is_digit (c : N) : bool := ((48 <=? c) && (c <=? 57))%N.

Definition is_alpha (c : N) : bool :=
  ((65 <=? c) && (c <=? 90) || (97 <=? c) && (c <=? 122))%N.

Fixpoint drop_spaces (s : list N) : list N :=
  match s with
  | c :: s' => if is_space c then drop_spaces s' else s
  | [] => []
  end.

(** [s.trim()] *)
Definition trim (s : list N) : list N :=
  reverse (drop_spaces (reverse (drop_spaces s))).

(** [s.startsWith(p)] *)
Fixpoint startsWith (s p : list N) : bool :=
  match p, s with
  | [], _ => true
  | c :: p', d :: s' => (c =? d)%N && startsWith s' p'
  | _ :: _, [] => false
  end.

(** [s.includes(p)] *)
Fixpoint includes (s p : list N) : bool :=
  startsWith s p ||
  match s with
  | [] => false
  | _ :: s' => includes s' p
  end.

(** [s.indexOf(c)] for a one-unit string [c]; -1 when absent. *)
Fixpoint indexOf (s : list N) (c : N) : Z :=
  match s with
  | [] => -1
  | d :: s' =>
      if (d =? c)%N then 0
      else let i := indexOf s' c in if i <? 0 then -1 else i + 1
  end.

(** [s.substring(from)] and [s.substring(from, to)] for
    [0 <= from <= to]. *)
Definition substring_from (s : list N) (from : Z) : list N :=
  drop (Z.to_nat from) s.

Definition substring (s : list N) (from to : Z) : list N :=
  take (Z.to_nat to - Z.to_nat from) (drop (Z.to_nat from) s).

(** [s.split(c)] for a one-unit separator: one more piece than there are
    separators. *)
Fixpoint split (s : list N) (c : N) : list (list N) :=
  match s with
  | [] => [[]]
  | d :: s' =>
      match split s' c with
      | piece :: pieces =>
          if (d =? c)%N then [] :: piece :: pieces
          else (d :: piece) :: pieces
      | [] => [[d]]
      end
  end.

(** [s.split(/\r?\n/)]: a piece ends at a line feed, and loses a carriage
    return that stands just before it. *)
Fixpoint split_lines (s : list N) : list (list N) :=
  match s with
  | [] => [[]]
  | d :: s' =>
      match split_lines s' with
      | piece :: pieces =>
          if (d =? 10)%N then [] :: piece :: pieces
          else if (d =? 13)%N && startsWith s' [10%N] then [] :: pieces
          else (d :: piece) :: pieces
      | [] => [[d]]
      end
  end.

(** [s.replace(p, '')] for a string pattern: the first occurrence goes. *)
Fixpoint remove_first (s p : list N) : list N :=
  if startsWith s p then drop (length p) s
  else match s with
       | [] => []
       | d :: s' => d :: remove_first s' p
       end.

(** [pieces.join(sep)] *)
Fixpoint join (pieces : list (list N)) (sep : list N) : list N :=
  match pieces with
  | [] => []
  | [piece] => piece
  | piece :: rest => piece ++ sep ++ join rest sep
  end.

End JSString.

(** ** Regular expressions

    A backtracking matcher in continuation-passing style, as ECMAScript
    specifies it: alternatives are tried from left to right, a star is
    greedy and gives up an iteration that consumes nothing.  A matcher
    works on what is left of the input; [Group i] records what its body
    consumed as capture [i]. *)

Module RegExp.
Import JSString.

Inductive regex :=
  | Eps
  | Chr (p : N → bool)
  | Seq (r1 r2 : regex)
  | Alt (r1 r2 : regex)
  | Star (r : regex)
  | Group (i : nat) (r : regex)
  | End_.

Definition captures := list (option (list N)).

Definition matcher (R : Type) : Type :=
  list N → captures → (list N → captures → option R) → option R.

Fixpoint star_loop {R} (body : matcher R) (fuel : nat) : matcher R :=
  λ s caps k,
  match fuel with
  | O => k s caps
  | S fuel' =>
      match body s caps (λ s' caps',
              if (length s' <? length s)%nat
              then star_loop body fuel' s' caps' k else None) with
      | Some x => Some x
      | None => k s caps
      end
  end.

Fixpoint m {R} (r : regex) : matcher R :=
  λ s caps k,
  match r with
  | Eps => k s caps
  | Chr p =>
      match s with
      | c :: s' => if p c then k s' caps else None
      | [] => None
      end
  | Seq r1 r2 => m r1 s caps (λ s' caps', m r2 s' caps' k)
  | Alt r1 r2 =>
      match m r1 s caps k with
      | Some x => Some x
      | None => m r2 s caps k
      end
  | Star r => star_loop (m r) (length s) s caps k
  | Group i r =>
      m r s caps (λ s' caps',
        k s' (<[i := Some (take (length s - length s') s)]> caps'))
  | End_ =>
      match s with
      | [] => k s caps
      | _ :: _ => None
      end
  end.

(** The pieces the source's patterns are written with. *)
Definition Lit (s : list N) : regex :=
  foldr (λ c r, Seq (Chr (N.eqb c)) r) Eps s.
Definition Opt (r : regex) : regex := Alt r Eps.
Definition Plus (r : regex) : regex := Seq r (Star r).
Fixpoint Rep (n : nat) (r : regex) : regex :=
  match n with
  | O => Eps
  | S n' => Seq r (Rep n' r)
  end.
Definition AtLeast (n : nat) (r : regex) : regex := Seq (Rep n r) (Star r).

(** A pattern: its body, the number of its groups, and whether it starts
    with [^]. *)
Record pattern := mkPattern {
  anchored : bool;
  groups : nat;
  body : regex
}.

Definition match_here (p : pattern) (s : list N) : option captures :=
  m (body p) s (replicate (S (groups p)) None)
    (λ s' caps, Some (<[0%nat := Some (take (length s - length s') s)]> caps)).

Fixpoint search (p : pattern) (s : list N) : option captures :=
  match match_here p s with
  | Some caps => Some caps
  | None =>
      match s with
      | [] => None
      | _ :: s' => search p s'
      end
  end.

(** [s.match(p)] without the [g] flag: the captures of the first match,
    capture 0 being the whole match. *)
Definition exec (p : pattern) (s : list N) : option captures :=
  if anchored p then match_here p s else search p s.

(** [p.test(s)] *)
Definition test (p : pattern) (s : list N) : bool :=
  match exec p s with Some _ => true | None => false end.

(** Capture [i] of a match; [undefined] reads as the empty string where
    the source uses captures, all of whose groups always take part. *)
Definition capture (caps : captures) (i : nat) : list N :=
  match caps !! i with
  | Some (Some s) => s
  | _ => []
  end.

End RegExp.

(** ** lib/scan-content-utils.ts *)

Module ContentUtils.
Import JSString RegExp.

Inductive ContentType :=
  | vcard | url | email | phone | wifi | location | sms | text | empty.

Inductive ActionType := Copy | Call | Email | Open | Sms | Navigate.

Record ContentAction := mkAction {
  action_type : ActionType;
  label : list N;
  value : list N;
  icon : option (list N)
}.

Record VCardName := mkName {
  formatted : option (list N);
  given : option (list N);
  family : option (list N);
  prefix : option (list N);
  suffix : option (list N)
}.

Record TypedValue := mkTyped {
  tv_type : list N;
  tv_value : list N
}.

Record Organization := mkOrganization {
  org_name : option (list N);
  org_title : option (list N)
}.

Record Address := mkAddress {
  adr_type : list N;
  street : option (list N);
  city : option (list N);
  state : option (list N);
  zip : option (list N);
  country : option (list N);
  adr_formatted : option (list N)
}.

(** A field that is [undefined] is [None]; [unmappedFields] is an object
    used as a map from names to values. *)
Record VCardContact := mkContact {
  name : option VCardName;
  emails : option (list TypedValue);
  phones : option (list TypedValue);
  organization : option Organization;
  addresses : option (list Address);
  urls : option (list TypedValue);
  notes : option (list N);
  unmappedFields : gmap (list N) (list N)
}.

(** The [data] of a result, one shape per branch of [parseContent].  The
    two numbers of a location are kept as the decimal texts that
    [parseFloat] is applied to. *)
Inductive ContentData :=
  | NoData
  | ContactData (contact : VCardContact)
  | UrlData (url_ original : list N)
  | EmailData (email_ : list N)
  | PhoneData (phone_ : list N)
  | WifiData (security ssid password : list N) (hidden : bool)
  | LocationData (latitude longitude : list N)
  | SmsData (number message : list N)
  | TextData (text_ : list N).

Record ParsedContent := mkParsed {
  type : ContentType;
  data : ContentData;
  displayText : list N;
  actions : list ContentAction
}.

(** What the platform provides and the file does not say: whether
    [new URL(s)] succeeds, and the two case mappings of strings. *)
Record Platform := mkPlatform {
  URL_canParse : list N → bool;
  toLowerCase : list N → list N;
  toUpperCase : list N → list N
}.

(** A string is falsy when it is empty. *)
Definition truthy (s : list N) : bool :=
  match s with [] => false | _ :: _ => true end.

(** [s || undefined] for a string, or a missing array element, [s]. *)
Definition or_undefined (s : option (list N)) : option (list N) :=
  match s with
  | Some (c :: s') => Some (c :: s')
  | _ => None
  end.

Definition seq_of (rs : list regex) : regex := foldr Seq Eps rs.

Definition is_char (a : ascii) (c : N) : bool := (c =? code a)%N.

(** *** detectContentType *)

(** [/^(\+?[\d\s\-\(\)]{10,})$/] *)
Definition phone_class (c : N) : bool :=
  is_digit c || is_space c || is_char "-" c || is_char "(" c || is_char ")" c.

Definition phonePattern : pattern :=
  mkPattern true 1
    (seq_of [Group 1 (seq_of [Opt (Chr (is_char "+"));
                              AtLeast 10 (Chr phone_class)]);
             End_]).

(** [/^[^\s@]+@[^\s@]+\.[^\s@]+$/] *)
Definition not_space_nor_at (c : N) : bool :=
  negb (is_space c || is_char "@" c).

Definition emailPattern : pattern :=
  mkPattern true 0
    (seq_of [Plus (Chr not_space_nor_at); Chr (is_char "@");
             Plus (Chr not_space_nor_at); Chr (is_char ".");
             Plus (Chr not_space_nor_at); End_]).

(** [-?\d+\.?\d*] *)
Definition decimal : regex :=
  seq_of [Opt (Chr (is_char "-")); Plus (Chr is_digit);
          Opt (Chr (is_char ".")); Star (Chr is_digit)].

(** [/^geo:-?\d+\.?\d*,-?\d+\.?\d*/] *)
Definition geoPattern : pattern :=
  mkPattern true 0
    (seq_of [Lit (js "geo:"); decimal; Chr (is_char ","); decimal]).

(** [/^(www\.)?[a-zA-Z0-9][a-zA-Z0-9-]*[a-zA-Z0-9]*\.[a-zA-Z]{2,}/] *)
Definition is_alnum (c : N) : bool := is_alpha c || is_digit c.
Definition is_alnum_or_hyphen (c : N) : bool := is_alnum c || is_char "-" c.

Definition urlPattern : pattern :=
  mkPattern true 1
    (seq_of [Opt (Group 1 (Lit (js "www."))); Chr is_alnum;
             Star (Chr is_alnum_or_hyphen); Star (Chr is_alnum);
             Chr (is_char "."); AtLeast 2 (Chr is_alpha)]).

Definition detectContentType (P : Platform) (content : list N) : ContentType :=
  if negb (truthy content) || negb (truthy (trim content)) then empty else
  let content := trim content in
  if startsWith content (js "BEGIN:VCARD") && includes content (js "END:VCARD")
  then vcard
  else if startsWith content (js "WIFI:") then wifi
  else if startsWith content (js "SMSTO:") || startsWith content (js "sms:")
  then sms
  else if test phonePattern content || startsWith content (js "tel:")
  then phone
  else if test emailPattern content || startsWith content (js "mailto:")
  then email
  else if test geoPattern content then location
  else if URL_canParse P content then url
  else if test urlPattern content then url
  else text.

(** *** parseVCard *)

Definition empty_name : VCardName := mkName None None None None None.

Definition empty_contact : VCardContact :=
  mkContact None None None None None None None ∅.

(** [list.push(x)] on a list that is created when absent. *)
Definition push {A} (l : option (list A)) (x : A) : option (list A) :=
  Some (default [] l ++ [x]).

(** The phone type that the [TEL] case derives from [typeParam]. *)
Definition cleanType (P : Platform) (typeParam : list N) : list N :=
  if truthy typeParam then
    let types := toLowerCase P typeParam in
    if includes types (js "cell") || includes types (js "mobile")
    then js "mobile"
    else if includes types (js "work") then js "work"
    else if includes types (js "home") then js "home"
    else if includes types (js "fax") then js "fax"
    else trim (default [] (head (split types (code ","))))
  else js "phone".

(** The single-line rendering that the [ADR] case builds. *)
Definition format_address (street city state zip country : option (list N))
    : option (list N) :=
  let addressParts := [] in
  let addressParts := match street with Some s => addressParts ++ [s] | None => addressParts end in
  let cityZipLine := [] in
  let cityZipLine := match zip with Some s => cityZipLine ++ [s] | None => cityZipLine end in
  let cityZipLine := match city with Some s => cityZipLine ++ [s] | None => cityZipLine end in
  let addressParts :=
    if (0 <? length cityZipLine)%nat
    then addressParts ++ [join cityZipLine (js " ")] else addressParts in
  let addressParts := match state with Some s => addressParts ++ [s] | None => addressParts end in
  let addressParts := match country with Some s => addressParts ++ [s] | None => addressParts end in
  or_undefined (Some (join (filter (λ s, truthy s = true) addressParts) (js ", "))).

(** The body of the loop over the lines: one line changes the contact. *)
Definition parse_line (P : Platform) (contact : VCardContact) (line : list N)
    : VCardContact :=
  if startsWith line (js "BEGIN:") || startsWith line (js "END:")
     || startsWith line (js "VERSION:")
  then contact
  else
    let colonIndex := indexOf line (code ":") in
    if colonIndex =? -1 then contact else
    let fieldPart := substring line 0 colonIndex in
    let value := substring_from line (colonIndex + 1) in
    let pieces := split fieldPart (code ";") in
    let field := default [] (head pieces) in
    let params := tail pieces in
    let typeParam :=
      match find (λ p, startsWith p (js "TYPE=")) params with
      | Some p =>
          let t := remove_first p (js "TYPE=") in
          if truthy t then t else js "default"
      | None => js "default"
      end in
    let upper := toUpperCase P field in
    let old_name := default empty_name (name contact) in
    let old_org := default (mkOrganization None None) (organization contact) in
    if bool_decide (upper = js "FN") then
      mkContact
        (Some (mkName (Some value) (given old_name) (family old_name)
                 (prefix old_name) (suffix old_name)))
        (emails contact) (phones contact) (organization contact)
        (addresses contact) (urls contact) (notes contact)
        (unmappedFields contact)
    else if bool_decide (upper = js "N") then
      let parts := split value (code ";") in
      mkContact
        (Some (mkName (formatted old_name)
                 (or_undefined (parts !! 1%nat)) (or_undefined (parts !! 0%nat))
                 (or_undefined (parts !! 3%nat)) (or_undefined (parts !! 4%nat))))
        (emails contact) (phones contact) (organization contact)
        (addresses contact) (urls contact) (notes contact)
        (unmappedFields contact)
    else if bool_decide (upper = js "EMAIL") then
      mkContact (name contact)
        (push (emails contact) (mkTyped (toLowerCase P typeParam) value))
        (phones contact) (organization contact)
        (addresses contact) (urls contact) (notes contact)
        (unmappedFields contact)
    else if bool_decide (upper = js "TEL") then
      mkContact (name contact) (emails contact)
        (push (phones contact) (mkTyped (cleanType P typeParam) value))
        (organization contact)
        (addresses contact) (urls contact) (notes contact)
        (unmappedFields contact)
    else if bool_decide (upper = js "ORG") then
      mkContact (name contact) (emails contact) (phones contact)
        (Some (mkOrganization (Some value) (org_title old_org)))
        (addresses contact) (urls contact) (notes contact)
        (unmappedFields contact)
    else if bool_decide (upper = js "TITLE") then
      mkContact (name contact) (emails contact) (phones contact)
        (Some (mkOrganization (org_name old_org) (Some value)))
        (addresses contact) (urls contact) (notes contact)
        (unmappedFields contact)
    else if bool_decide (upper = js "ADR") then
      let parts := split value (code ";") in
      let street := or_undefined (parts !! 2%nat) in
      let city := or_undefined (parts !! 3%nat) in
      let state := or_undefined (parts !! 4%nat) in
      let zip := or_undefined (parts !! 5%nat) in
      let country := or_undefined (parts !! 6%nat) in
      mkContact (name contact) (emails contact) (phones contact)
        (organization contact)
        (push (addresses contact)
           (mkAddress (toLowerCase P typeParam) street city state zip country
              (format_address street city state zip country)))
        (urls contact) (notes contact) (unmappedFields contact)
    else if bool_decide (upper = js "URL") then
      mkContact (name contact) (emails contact) (phones contact)
        (organization contact) (addresses contact)
        (push (urls contact) (mkTyped (toLowerCase P typeParam) value))
        (notes contact) (unmappedFields contact)
    else if bool_decide (upper = js "NOTE") then
      mkContact (name contact) (emails contact) (phones contact)
        (organization contact) (addresses contact) (urls contact)
        (Some value) (unmappedFields contact)
    else
      let key := toLowerCase P field in
      mkContact (name contact) (emails contact) (phones contact)
        (organization contact) (addresses contact) (urls contact)
        (notes contact)
        (if bool_decide (key = js "__proto__") then unmappedFields contact
         else <[key := value]> (unmappedFields contact)).

Definition parseVCard (P : Platform) (vcardString : list N) : VCardContact :=
  let lines :=
    filter (λ line, (0 < length line)%nat) (trim <$> split_lines vcardString) in
  foldl (parse_line P) empty_contact lines.

(** *** parseContent *)

(** [encodeURIComponent]: every code point outside the unreserved set is
    written as the percent-escaped bytes of its UTF-8 encoding; a surrogate
    without its partner makes it throw a [URIError] ([None]). *)
Definition is_unreserved (c : N) : bool :=
  is_alnum c || existsb (N.eqb c) (js "-_.!~*'()").

Definition hex_digit (n : N) : N :=
  if (n <? 10)%N then (48 + n)%N else (55 + n)%N.

Definition percent (byte : N) : list N :=
  [code "%"; hex_digit (byte / 16); hex_digit (byte mod 16)]%N.

Definition utf8 (cp : N) : list N :=
  (if cp <? 128 then [cp]
   else if cp <? 2048 then [192 + cp / 64; 128 + cp mod 64]
   else if cp <? 65536 then
     [224 + cp / 4096; 128 + (cp / 64) mod 64; 128 + cp mod 64]
   else
     [240 + cp / 262144; 128 + (cp / 4096) mod 64;
      128 + (cp / 64) mod 64; 128 + cp mod 64])%N.

Definition is_high_surrogate (c : N) : bool :=
  ((55296 <=? c) && (c <=? 56319))%N.
Definition is_low_surrogate (c : N) : bool :=
  ((56320 <=? c) && (c <=? 57343))%N.

Definition escape (cp : N) : list N := mjoin (percent <$> utf8 cp).

Fixpoint encodeURIComponent (s : list N) : option (list N) :=
  match s with
  | [] => Some []
  | c :: s' =>
      if is_unreserved c then (λ r, c :: r) <$> encodeURIComponent s'
      else if is_low_surrogate c then None
      else if is_high_surrogate c then
        match s' with
        | d :: s'' =>
            if is_low_surrogate d then
              let cp := ((c - 55296) * 1024 + (d - 56320) + 65536)%N in
              (λ r, escape cp ++ r) <$> encodeURIComponent s''
            else None
        | [] => None
        end
      else (λ r, escape c ++ r) <$> encodeURIComponent s'
  end.

(** The pattern of the [wifi] case: [WIFI:T:], [;S:], [;P:] and [;H:],
    each followed by a group of characters other than [;], and an optional
    last [;]. *)
Definition not_semicolon (c : N) : bool := negb (is_char ";" c).

Definition wifiPattern : pattern :=
  mkPattern false 4
    (seq_of [Lit (js "WIFI:T:"); Group 1 (Star (Chr not_semicolon));
             Lit (js ";S:"); Group 2 (Star (Chr not_semicolon));
             Lit (js ";P:"); Group 3 (Star (Chr not_semicolon));
             Lit (js ";H:"); Group 4 (Star (Chr not_semicolon));
             Opt (Chr (is_char ";"))]).

(** The pattern of the [location] case: [geo:] and two groups of the shape
    [-?\d+\.?\d*] with a comma between them. *)
Definition geoMatchPattern : pattern :=
  mkPattern false 2
    (seq_of [Lit (js "geo:"); Group 1 decimal; Chr (is_char ",");
             Group 2 decimal]).

(** The pattern of the [sms] case: [SMSTO:] or [sms:], a group of
    characters other than [:] and [?], an optional [?] or [:], and a group
    with the rest of the line. *)
Definition not_colon_nor_question (c : N) : bool :=
  negb (is_char ":" c || is_char "?" c).
Definition colon_or_question (c : N) : bool :=
  is_char "?" c || is_char ":" c.
Definition not_line_terminator (c : N) : bool := negb (is_line_terminator c).

Definition smsPattern : pattern :=
  mkPattern false 2
    (seq_of [Alt (Lit (js "SMSTO:")) (Lit (js "sms:"));
             Group 1 (Star (Chr not_colon_nor_question));
             Opt (Chr colon_or_question);
             Group 2 (Star (Chr not_line_terminator))]).

(** How a call of [parseContent] ends. *)
Inductive outcome :=
  | Parsed (parsed : ParsedContent)
  | ThrowsURIError.

Definition copy_text (content : list N) : ContentAction :=
  mkAction Copy (js "Copy Text") content (Some (js "clipboard")).

(** The call action of one phone entry of a contact. *)
Definition call_action (phone : TypedValue) : ContentAction :=
  let typeLabel :=
    if truthy (tv_type phone) && negb (bool_decide (tv_type phone = js "phone"))
    then js " (" ++ tv_type phone ++ js ")" else [] in
  mkAction Call (js "Call " ++ tv_value phone ++ typeLabel) (tv_value phone)
    (Some (js "phone")).

Definition displayName_of (contact : VCardContact) : list N :=
  match name contact with
  | Some n =>
      match formatted n with
      | Some (c :: f) => c :: f
      | _ =>
          match given n, family n with
          | Some (c :: g), Some (d :: f) => (c :: g) ++ js " " ++ (d :: f)
          | _, _ => js "Contact"
          end
      end
  | None => js "Contact"
  end.

Definition parseContent (P : Platform) (content : list N) : outcome :=
  let type := detectContentType P content in
  let fallback :=
    Parsed (mkParsed text (TextData content) content [copy_text content]) in
  match type with
  | empty => Parsed (mkParsed type NoData (js "No content found") [])
  | vcard =>
      let contact := parseVCard P content in
      let displayName := displayName_of contact in
      let actions := [] in
      let actions :=
        match phones contact with
        | Some (p :: ps) => actions ++ (call_action <$> (p :: ps))
        | _ => actions
        end in
      let actions :=
        match emails contact with
        | Some (e :: es) =>
            actions ++ [mkAction Email (js "Email " ++ tv_value e) (tv_value e)
                          (Some (js "envelope"))]
        | _ => actions
        end in
      let actions :=
        actions ++
        [mkAction Copy (js "Copy vCard") content (Some (js "clipboard"))] in
      Parsed (mkParsed type (ContactData contact) displayName actions)
  | url =>
      let processedUrl :=
        if negb (startsWith content (js "http://")) &&
           negb (startsWith content (js "https://"))
        then js "https://" ++ content else content in
      Parsed (mkParsed type (UrlData processedUrl content) content
        [mkAction Open (js "Open Website") processedUrl
           (Some (js "external-link"));
         mkAction Copy (js "Copy URL") content (Some (js "clipboard"))])
  | email =>
      let emailAddress :=
        if startsWith content (js "mailto:") then substring_from content 7
        else content in
      Parsed (mkParsed type (EmailData emailAddress) emailAddress
        [mkAction Email (js "Send Email") emailAddress (Some (js "envelope"));
         mkAction Copy (js "Copy Email") emailAddress (Some (js "clipboard"))])
  | phone =>
      let phoneNumber :=
        if startsWith content (js "tel:") then substring_from content 4
        else content in
      Parsed (mkParsed type (PhoneData phoneNumber) phoneNumber
        [mkAction Call (js "Call Number") phoneNumber (Some (js "phone"));
         mkAction Sms (js "Send SMS") phoneNumber
           (Some (js "chat-bubble-left"));
         mkAction Copy (js "Copy Number") phoneNumber (Some (js "clipboard"))])
  | wifi =>
      match exec wifiPattern content with
      | Some wifiMatch =>
          let security := capture wifiMatch 1 in
          let ssid := capture wifiMatch 2 in
          let password := capture wifiMatch 3 in
          let hidden := capture wifiMatch 4 in
          Parsed (mkParsed type
            (WifiData security ssid password (bool_decide (hidden = js "true")))
            (js "WiFi: " ++ ssid)
            [mkAction Copy (js "Copy WiFi Info") content
               (Some (js "clipboard"))])
      | None => fallback
      end
  | location =>
      match exec geoMatchPattern content with
      | Some geoMatch =>
          let lat := capture geoMatch 1 in
          let lng := capture geoMatch 2 in
          Parsed (mkParsed type (LocationData lat lng)
            (js "Location: " ++ lat ++ js ", " ++ lng)
            [mkAction Navigate (js "Open in Maps")
               (js "https://maps.google.com/maps?q=" ++ lat ++ js "," ++ lng)
               (Some (js "map-pin"));
             mkAction Copy (js "Copy Coordinates") (lat ++ js ", " ++ lng)
               (Some (js "clipboard"))])
      | None => fallback
      end
  | sms =>
      match exec smsPattern content with
      | Some smsMatch =>
          let number := capture smsMatch 1 in
          let message := capture smsMatch 2 in
          let displayText :=
            js "SMS to " ++ number ++
            (if truthy message then js ": " ++ message else []) in
          let body :=
            if truthy message
            then (λ e, js "?body=" ++ e) <$> encodeURIComponent message
            else Some [] in
          match body with
          | Some body =>
              Parsed (mkParsed type (SmsData (trim number) message) displayText
                [mkAction Sms (js "Send SMS") (js "sms:" ++ number ++ body)
                   (Some (js "chat-bubble-left"));
                 mkAction Copy (js "Copy Content") content
                   (Some (js "clipboard"))])
          | None => ThrowsURIError
          end
      | None => fallback
      end
  | text =>
      Parsed (mkParsed text (TextData content)
        (if (100 <? length content)%nat
         then substring content 0 100 ++ js "..." else content)
        [copy_text content])
  end.

End ContentUtils.

(** ** Properties of the filters *)

Module PreprocessingFacts.
Import Number Preprocessing.

(** *** Stores keep the length and touch one slot *)

Lemma length_store a i v : length (store a i v) = length a.
Proof. unfold store. destruct (i <? 0); [done | apply length_insert]. Qed.

Lemma length_store_num a i x : length (store_num a i x) = length a.
Proof. unfold store_num. destruct (i <? 0); [done | apply length_insert]. Qed.

Lemma length_store3 a i r g b : length (store3 a i r g b) = length a.
Proof. unfold store3. by rewrite !length_store. Qed.

Lemma lookup_store_ne a i v (j : nat) :
  Z.of_nat j ≠ i → store a i v !! j = a !! j.
Proof.
  intros Hne. unfold store. destruct (Z.ltb_spec i 0); [done |].
  apply list_lookup_insert_ne. lia.
Qed.

Lemma lookup_store_num_ne a i x (j : nat) :
  Z.of_nat j ≠ i → store_num a i x !! j = a !! j.
Proof.
  intros Hne. unfold store_num. destruct (Z.ltb_spec i 0); [done |].
  apply list_lookup_insert_ne. lia.
Qed.

Lemma lookup_store_eq a i v :
  0 <= i < Z.of_nat (length a) → store a i v !! Z.to_nat i = Some (clamp8 v).
Proof.
  intros Hi. unfold store. destruct (Z.ltb_spec i 0); [lia |].
  apply list_lookup_insert_eq. lia.
Qed.

Lemma lookup_store3_ne a i r g b (j : nat) :
  (Z.of_nat j < i ∨ i + 3 <= Z.of_nat j) →
  store3 a i r g b !! j = a !! j.
Proof.
  intros Hj. unfold store3. rewrite !lookup_store_ne; [done | lia..].
Qed.

Lemma lookup_store3_eq a i r g b (c : Z) :
  0 <= i → i + 2 < Z.of_nat (length a) → 0 <= c < 3 →
  store3 a i r g b !! Z.to_nat (i + c) =
    Some (clamp8 (if c =? 0 then r else if c =? 1 then g else b)).
Proof.
  intros Hi Hlen Hc. unfold store3.
  assert (c = 0 ∨ c = 1 ∨ c = 2) as [-> | [-> | ->]] by lia; simpl.
  - rewrite !lookup_store_ne by lia. replace (i + 0) with i by lia.
    apply lookup_store_eq. lia.
  - rewrite lookup_store_ne by lia. apply lookup_store_eq.
    rewrite length_store. lia.
  - apply lookup_store_eq. rewrite !length_store. lia.
Qed.

Lemma get_lookup a (i : Z) v :
  0 <= i → a !! Z.to_nat i = Some v → get a i = v.
Proof.
  intros Hi Hv. unfold get. destruct (Z.ltb_spec i 0); [lia |].
  by rewrite (list_lookup_total_correct _ _ _ Hv).
Qed.

(** *** The range of the luma

    Checked on every triple of bytes, by running the binary64 expression. *)

Definition bytes : list Z := seqZ 0 256.

Definition blue_terms : list float := (λ b, (0.114 * num b)%float) <$> bytes.

Definition luma_ok (xy z : float) : bool :=
  Uint63.leb (int_of_float (Math_round (xy + z)%float)) 255.

Lemma luma_table :
  forallb (λ r, let x := (0.299 * num r)%float in
    forallb (λ g, let xy := (x + 0.587 * num g)%float in
      forallb (luma_ok xy) blue_terms) bytes) bytes = true.
Proof. vm_compute. reflexivity. Qed.

Lemma In_bytes v : is_byte v → In v bytes.
Proof.
  intros Hv. apply list_elem_of_In, elem_of_seqZ. unfold is_byte in Hv. lia.
Qed.

Lemma forallb_In {A} (f : A → bool) (l : list A) (x : A) :
  forallb f l = true → In x l → f x = true.
Proof. intros Hall Hx. by apply (proj1 (forallb_forall f l) Hall). Qed.

Lemma byte_max : Uint63.to_Z 255 = 255.
Proof. vm_compute. reflexivity. Qed.

Lemma luma_range r g b :
  is_byte r → is_byte g → is_byte b → is_byte (luma r g b).
Proof.
  intros Hr Hg Hb.
  pose proof (forallb_In _ _ r luma_table (In_bytes r Hr)) as Hg_ok.
  pose proof (forallb_In _ _ g Hg_ok (In_bytes g Hg)) as Hb_ok.
  assert (In (0.114 * num b)%float blue_terms) as Hin.
  { apply (in_map (λ b, (0.114 * num b)%float)). by apply In_bytes. }
  pose proof (forallb_In _ _ _ Hb_ok Hin) as Hok.
  apply Uint63.leb_spec in Hok. rewrite byte_max in Hok.
  pose proof (Uint63.to_Z_bounded (int_of_float (luma_num r g b))) as Hlo.
  split; [apply Hlo | exact Hok].
Qed.

Lemma luma_black : luma 0 0 0 = 0.
Proof. reflexivity. Qed.

Lemma luma_white : luma 255 255 255 = 255.
Proof. reflexivity. Qed.

(** *** The frame of a filter: length and alpha slots *)

Definition frame (a a' : list Z) : Prop :=
  length a' = length a ∧
  ∀ k : nat, a' !! (4 * k + 3)%nat = a !! (4 * k + 3)%nat.

(** The index of a red, green or blue slot. *)
Definition colour_slot (i : Z) : Prop := ∃ q c, i = 4 * q + c ∧ 0 <= c < 3.

Lemma frame_refl a : frame a a.
Proof. by split. Qed.

Lemma frame_trans a b c : frame a b → frame b c → frame a c.
Proof.
  intros [Hl1 Ha1] [Hl2 Ha2]. split; [congruence |].
  intros k. by rewrite Ha2, Ha1.
Qed.

Lemma store_frame a i v : colour_slot i → frame a (store a i v).
Proof.
  intros (q & c & -> & Hc). split; [apply length_store |].
  intros k. apply lookup_store_ne. lia.
Qed.

Lemma store_num_frame a i x : colour_slot i → frame a (store_num a i x).
Proof.
  intros (q & c & -> & Hc). split; [apply length_store_num |].
  intros k. apply lookup_store_num_ne. lia.
Qed.

Lemma colour_slot_0 q : colour_slot (4 * q).
Proof. exists q, 0. lia. Qed.
Lemma colour_slot_1 q : colour_slot (4 * q + 1).
Proof. exists q, 1. lia. Qed.
Lemma colour_slot_2 q : colour_slot (4 * q + 2).
Proof. exists q, 2. lia. Qed.

Lemma store3_frame a q r g b : frame a (store3 a (4 * q) r g b).
Proof.
  unfold store3.
  eapply frame_trans; [| apply store_frame, colour_slot_2].
  eapply frame_trans; [| apply store_frame, colour_slot_1].
  apply store_frame, colour_slot_0.
Qed.

(** A loop whose body keeps the frame keeps the frame. *)
Lemma foldl_frame {B} (f : list Z → B → list Z) (P : B → Prop) l a :
  Forall P l → (∀ a x, P x → frame a (f a x)) → frame a (foldl f a l).
Proof.
  intros Hl Hf. revert a.
  induction Hl as [| x l Hx _ IH]; intros a; simpl; [apply frame_refl |].
  eapply frame_trans; [apply Hf, Hx | apply IH].
Qed.

Lemma for_step4_multiple len : Forall (λ i, ∃ q, i = 4 * q) (for_step4 len).
Proof.
  unfold for_step4. apply Forall_fmap, Forall_forall.
  intros k _. simpl. by exists k.
Qed.

Lemma enhancedContrast_frame im : frame (data im) (data (enhancedContrast im)).
Proof.
  unfold enhancedContrast; simpl.
  eapply foldl_frame; [apply for_step4_multiple |].
  intros a i [q ->]; simpl.
  eapply frame_trans; [| apply store_num_frame, colour_slot_2].
  eapply frame_trans; [| apply store_num_frame, colour_slot_1].
  apply store_num_frame, colour_slot_0.
Qed.

Lemma adaptiveHistogram_frame im :
  frame (data im) (data (adaptiveHistogram im)).
Proof.
  unfold adaptiveHistogram; simpl.
  eapply foldl_frame; [apply for_step4_multiple |].
  intros a i [q ->]; simpl. apply store3_frame.
Qed.

Lemma binaryThreshold_frame im : frame (data im) (data (binaryThreshold im)).
Proof.
  unfold binaryThreshold; simpl.
  eapply foldl_frame; [apply for_step4_multiple |].
  intros a i [q ->]; simpl. apply store3_frame.
Qed.

Lemma colorInversion_frame im : frame (data im) (data (colorInversion im)).
Proof.
  unfold colorInversion; simpl.
  eapply foldl_frame; [apply for_step4_multiple |].
  intros a i [q ->]; simpl.
  eapply frame_trans; [| apply store_frame, colour_slot_2].
  eapply frame_trans; [| apply store_frame, colour_slot_1].
  apply store_frame, colour_slot_0.
Qed.

Lemma sharpening_frame im : frame (data im) (data (sharpening im)).
Proof.
  unfold sharpening; simpl.
  eapply (foldl_frame _ (λ _, True)); [by apply Forall_forall |].
  intros a y _.
  eapply (foldl_frame _ (λ _, True)); [by apply Forall_forall |].
  intros a' x _. destruct (convolve a' (width im) x y) as [[r g] b].
  replace ((y * width im + x) * 4) with (4 * (y * width im + x)) by lia.
  apply store3_frame.
Qed.

Lemma morphological_frame im : frame (data im) (data (morphological im)).
Proof.
  unfold morphological; simpl.
  eapply (foldl_frame _ (λ _, True)); [by apply Forall_forall |].
  intros a y _.
  eapply (foldl_frame _ (λ _, True)); [by apply Forall_forall |].
  intros a' x _.
  replace ((y * width im + x) * 4) with (4 * (y * width im + x)) by lia.
  apply store3_frame.
Qed.

(** Every strategy keeps the sides, and keeps the frame of the data. *)
Lemma strategies_frame :
  Forall (λ s, ∀ im,
    width (fn s im) = width im ∧ height (fn s im) = height im ∧
    frame (data im) (data (fn s im))) processingStrategies.
Proof.
  unfold processingStrategies.
  repeat apply Forall_cons_2; [.. | apply Forall_nil_2]; intros im; simpl;
    (split; [done | split; [done |]]).
  - apply frame_refl.
  - apply enhancedContrast_frame.
  - apply adaptiveHistogram_frame.
  - apply binaryThreshold_frame.
  - apply sharpening_frame.
  - apply colorInversion_frame.
  - apply morphological_frame.
Qed.

(** *** Bitmaps to try things on *)

Definition byteb (v : Z) : bool := (0 <=? v) && (v <=? 255).

Lemma Forall_byteb l : forallb byteb l = true → Forall is_byte l.
Proof.
  intros Hl. apply Forall_forall. intros v Hv.
  apply list_elem_of_In in Hv.
  pose proof (forallb_In _ _ _ Hl Hv) as Hb. unfold byteb in Hb.
  apply andb_prop in Hb as [H0 H255]. unfold is_byte. lia.
Qed.

Definition grey (v : Z) : list Z := [v; v; v; 255].

(** Four by three, flat grey with one brighter pixel at (1, 1). *)
Definition spot_4x3 : ImageData :=
  mkImageData
    (grey 100 ++ grey 100 ++ grey 100 ++ grey 100 ++
     grey 100 ++ grey 110 ++ grey 100 ++ grey 100 ++
     grey 100 ++ grey 100 ++ grey 100 ++ grey 100) 4 3.

Lemma spot_4x3_well_formed : well_formed spot_4x3.
Proof.
  split; simpl; [lia | lia | reflexivity |].
  by apply Forall_byteb.
Defined.

(** *** Dimensions and alpha *)

(** C9: each of the seven strategies' filters returns a bitmap with the
    width and the height of its input, and with exactly width * height * 4
    bytes of pixel data. *)
Theorem filters_preserve_dimensions (s : ProcessingStrategy) (im : ImageData) :
  s ∈ processingStrategies → well_formed im →
  width (fn s im) = width im ∧ height (fn s im) = height im ∧
  Z.of_nat (length (data (fn s im))) = width im * height im * 4.
Proof.
  intros Hs Hwf.
  destruct (proj1 (Forall_forall _ _) strategies_frame s Hs im)
    as (Hw & Hh & Hlen & _).
  repeat split; [done | done |].
  rewrite Hlen. apply (wf_length _ Hwf).
Qed.

Lemma filters_preserve_dimensions_witness :
  let s := mkStrategy "Morphological" 95 morphological in
  s ∈ processingStrategies ∧ well_formed spot_4x3 ∧
  width (fn s spot_4x3) = 4 ∧ height (fn s spot_4x3) = 3 ∧
  Z.of_nat (length (data (fn s spot_4x3))) = 4 * 3 * 4.
Proof.
  intros s.
  assert (s ∈ processingStrategies) as Hs
    by (apply (list_elem_of_lookup_2 _ 6%nat); reflexivity).
  split; [exact Hs |]. split; [exact spot_4x3_well_formed |].
  exact (filters_preserve_dimensions s spot_4x3 Hs spot_4x3_well_formed).
Defined.

(** C10: each of the seven strategies' filters leaves the alpha byte of
    every pixel as it was: slot 4p + 3 of the output holds what slot 4p + 3
    of the input holds, for every bitmap and every pixel number p. *)
Theorem filters_keep_alpha :
  Forall (λ s, ∀ (im : ImageData) (p : nat),
    data (fn s im) !! (4 * p + 3)%nat = data im !! (4 * p + 3)%nat)
    processingStrategies.
Proof.
  eapply Forall_impl; [apply strategies_frame |].
  intros s Hs im p. destruct (Hs im) as (_ & _ & _ & Halpha). apply Halpha.
Qed.

(** *** Loops that paint one pixel per round

    The body stores one value into the three colour slots at [idx p]; the
    value does not depend on the array being written. *)

Section Paint.
Context {B : Type} (idx val : B → Z).

Definition paint (a : list Z) (ps : list B) : list Z :=
  foldl (λ a p, store3 a (idx p) (val p) (val p) (val p)) a ps.

Lemma length_paint ps a : length (paint a ps) = length a.
Proof.
  revert a. induction ps as [| p ps IH]; intros a; simpl; [done |].
  unfold paint in IH. rewrite IH. apply length_store3.
Qed.

Lemma paint_lookup_miss ps a (j : nat) :
  (∀ q, q ∈ ps → Z.of_nat j < idx q ∨ idx q + 3 <= Z.of_nat j) →
  paint a ps !! j = a !! j.
Proof.
  revert a. induction ps as [| p ps IH]; intros a Hmiss; simpl; [done |].
  unfold paint in IH. rewrite IH.
  - apply lookup_store3_ne, Hmiss, list_elem_of_here.
  - intros q Hq. apply Hmiss. by apply list_elem_of_further.
Qed.

Lemma paint_lookup_hit ps a p (c : Z) :
  0 <= idx p → idx p + 2 < Z.of_nat (length a) → 0 <= c < 3 →
  (∀ q, q ∈ ps →
     (idx q = idx p ∧ val q = val p) ∨
     idx q + 3 <= idx p ∨ idx p + 3 <= idx q) →
  p ∈ ps ∨ a !! Z.to_nat (idx p + c) = Some (clamp8 (val p)) →
  paint a ps !! Z.to_nat (idx p + c) = Some (clamp8 (val p)).
Proof.
  intros Hlo Hhi Hc. revert a Hhi.
  induction ps as [| q ps IH]; intros a Hhi Hsep Hin; simpl.
  - destruct Hin as [Hin | Ha]; [by apply elem_of_nil in Hin | done].
  - unfold paint in IH. apply IH.
    + by rewrite length_store3.
    + intros q' Hq'. apply Hsep. by apply list_elem_of_further.
    + destruct (Hsep q (list_elem_of_here _ _)) as [[Hi Hv] | Hfar].
      * right. rewrite Hi, Hv.
        rewrite (lookup_store3_eq a (idx p) _ _ _ c) by lia.
        by destruct (c =? 0), (c =? 1).
      * destruct Hin as [Hin | Ha].
        -- apply elem_of_cons in Hin as [-> | Hin]; [lia | by left].
        -- right. rewrite lookup_store3_ne by lia. exact Ha.
Qed.
End Paint.

(** Two nested loops are one loop over the pairs, row by row. *)
Definition grid (xs ys : list Z) : list (Z * Z) :=
  y ← ys; (λ x, (x, y)) <$> xs.

Lemma foldl_grid {A} (f : A → Z → Z → A) xs ys a :
  foldl (λ a y, foldl (λ a x, f a x y) a xs) a ys =
  foldl (λ a p, f a p.1 p.2) a (grid xs ys).
Proof.
  revert a. induction ys as [| y ys IH]; intros a; [done |].
  unfold grid in *. simpl. rewrite foldl_app, <- IH. f_equal.
  clear IH. revert a.
  induction xs as [| x xs IHx]; intros a; simpl; [done | apply IHx].
Qed.

Lemma elem_of_grid xs ys x y : (x, y) ∈ grid xs ys ↔ x ∈ xs ∧ y ∈ ys.
Proof.
  unfold grid. rewrite list_elem_of_bind. split.
  - intros (y' & Hin & Hy'). apply list_elem_of_fmap in Hin as (x' & Heq & Hx').
    by simplify_eq.
  - intros [Hx Hy]. exists y. split; [| done].
    apply list_elem_of_fmap. by exists x.
Qed.

(** The pixels both spatial filters write: all but a border of one. *)
Definition interior (w h : Z) : list (Z * Z) :=
  grid (seqZ 1 (w - 1 - 1)) (seqZ 1 (h - 1 - 1)).

Lemma elem_of_interior w h x y :
  (x, y) ∈ interior w h ↔ 1 <= x <= w - 2 ∧ 1 <= y <= h - 2.
Proof. unfold interior. rewrite elem_of_grid, !elem_of_seqZ. lia. Qed.

(** Two pixels of one row-major bitmap share no slot. *)
Lemma pixels_apart w x y x' y' :
  0 <= x < w → 0 <= x' < w → (x, y) ≠ (x', y') →
  (y' * w + x') * 4 + 4 <= (y * w + x) * 4 ∨
  (y * w + x) * 4 + 4 <= (y' * w + x') * 4.
Proof.
  intros Hx Hx' Hne.
  destruct (Z.lt_trichotomy y y') as [Hlt | [Heq | Hgt]].
  - right. nia.
  - subst y'. assert (x ≠ x') by congruence. lia.
  - left. nia.
Qed.

(** *** morphological *)

Lemma get_byte a i : Forall is_byte a → is_byte (get a i).
Proof.
  intros Ha. unfold get. destruct (i <? 0); [unfold is_byte; lia |].
  rewrite list_lookup_total_alt.
  destruct (a !! Z.to_nat i) as [v |] eqn:Hv; simpl.
  - by apply (Forall_lookup_1 _ _ _ _ Ha Hv).
  - unfold is_byte. simpl. lia.
Qed.

Definition neighbourhood (x y : Z) : list (Z * Z) :=
  (λ d, (x + d.1, y + d.2)) <$> grid (seqZ (-1) 3) (seqZ (-1) 3).

Lemma foldl_min_fmap {B} (g : B → Z) l m :
  foldl (λ m p, Z.min m (g p)) m l = foldl Z.min m (g <$> l).
Proof. revert m. induction l as [| p l IH]; intros m; simpl; [done | apply IH]. Qed.

Lemma window_min_flat temp w x y :
  window_min temp w x y =
  foldl Z.min 255
    ((λ p, gray_at temp ((p.2 * w + p.1) * 4)) <$> neighbourhood x y).
Proof.
  unfold window_min, neighbourhood.
  rewrite (foldl_grid (λ m dx dy,
    Z.min m (gray_at temp (((y + dy) * w + (x + dx)) * 4)))).
  rewrite foldl_min_fmap. by rewrite <- list_fmap_compose.
Qed.

Lemma gray_at_byte a i : Forall is_byte a → is_byte (gray_at a i).
Proof. intros Ha. unfold gray_at. apply luma_range; by apply get_byte. Qed.

Lemma neighbourhood_nine x y :
  neighbourhood x y =
  [ (x + -1, y + -1); (x + 0, y + -1); (x + 1, y + -1);
    (x + -1, y + 0); (x + 0, y + 0); (x + 1, y + 0);
    (x + -1, y + 1); (x + 0, y + 1); (x + 1, y + 1) ].
Proof. reflexivity. Qed.

(** [m] is the least element of [l]. *)
Definition is_min_of (m : Z) (l : list Z) : Prop :=
  m ∈ l ∧ ∀ v, v ∈ l → m <= v.

Lemma foldl_min_spec l m0 :
  foldl Z.min m0 l <= m0 ∧
  (∀ v, v ∈ l → foldl Z.min m0 l <= v) ∧
  (foldl Z.min m0 l = m0 ∨ foldl Z.min m0 l ∈ l).
Proof.
  revert m0. induction l as [| u l IH]; intros m0; simpl.
  - split; [lia |]. split; [| by left].
    intros v Hv. by apply elem_of_nil in Hv.
  - destruct (IH (Z.min m0 u)) as (H1 & H2 & H3).
    split; [lia |]. split.
    + intros v Hv. apply elem_of_cons in Hv as [-> | Hv]; [lia | by apply H2].
    + destruct H3 as [H3 | H3]; [| right; by apply list_elem_of_further].
      destruct (Z.min_spec m0 u) as [[_ E] | [_ E]]; [left | right];
        rewrite H3, E; [done | apply list_elem_of_here].
Qed.

Lemma foldl_min_255 l :
  l ≠ [] → Forall is_byte l → is_min_of (foldl Z.min 255 l) l.
Proof.
  intros Hne Hb. destruct (foldl_min_spec l 255) as (H1 & H2 & H3).
  split; [| done]. destruct H3 as [H3 | H3]; [| done].
  destruct l as [| u l]; [done |].
  pose proof (H2 u (list_elem_of_here _ _)) as Hu.
  apply Forall_cons_1 in Hb as [Hub _]. unfold is_byte in Hub.
  rewrite H3 in *. replace 255 with u by lia. apply list_elem_of_here.
Qed.

(** The luma of the pixel at [p] of a bitmap. *)
Definition pixel_luma (im : ImageData) (p : Z * Z) : Z :=
  gray_at (data im) ((p.2 * width im + p.1) * 4).

Lemma window_min_is_min im x y :
  Forall is_byte (data im) →
  is_min_of (window_min (data im) (width im) x y)
    (pixel_luma im <$> neighbourhood x y).
Proof.
  intros Hb. rewrite window_min_flat. apply foldl_min_255.
  - by rewrite neighbourhood_nine.
  - apply Forall_fmap, Forall_forall. intros p _. by apply gray_at_byte.
Qed.

Lemma morphological_paint im :
  data (morphological im) =
  paint (λ p, (p.2 * width im + p.1) * 4)
        (λ p, window_min (data im) (width im) p.1 p.2)
        (data im) (interior (width im) (height im)).
Proof.
  unfold morphological, paint, interior. simpl.
  by rewrite (foldl_grid (λ a x y,
    store3 a ((y * width im + x) * 4)
      (window_min (data im) (width im) x y)
      (window_min (data im) (width im) x y)
      (window_min (data im) (width im) x y))).
Qed.

Lemma clamp8_byte v : is_byte v → clamp8 v = v.
Proof. unfold is_byte, clamp8. lia. Qed.

(** C6: on a well-formed bitmap, the red, green and blue bytes of every
    interior pixel of the eroded bitmap all hold the least luma found among
    the nine pixels around it in the bitmap that was passed in, its alpha
    byte is kept, and a pixel on the border keeps all four bytes. *)
Theorem erosion_reads_the_original (im : ImageData) (x y : Z) :
  well_formed im → 0 <= x < width im → 0 <= y < height im →
  let out := data (morphological im) in
  let slot c := Z.to_nat ((y * width im + x) * 4 + c) in
  (1 <= x <= width im - 2 ∧ 1 <= y <= height im - 2 →
     ∃ m, is_min_of m (pixel_luma im <$> neighbourhood x y) ∧
          out !! slot 0 = Some m ∧ out !! slot 1 = Some m ∧
          out !! slot 2 = Some m ∧ out !! slot 3 = data im !! slot 3) ∧
  (¬ (1 <= x <= width im - 2 ∧ 1 <= y <= height im - 2) →
     ∀ c, 0 <= c < 4 → out !! slot c = data im !! slot c).
Proof.
  intros Hwf Hx Hy out slot. destruct Hwf as [Hw Hh Hlen Hbytes].
  subst out slot. cbv beta. rewrite morphological_paint.
  set (idx := λ p : Z * Z, (p.2 * width im + p.1) * 4).
  set (val := λ p : Z * Z, window_min (data im) (width im) p.1 p.2).
  assert (0 <= idx (x, y)) as Hpos by (subst idx; simpl; nia).
  assert (∀ q, q ∈ interior (width im) (height im) → q ≠ (x, y) →
            idx q + 4 <= idx (x, y) ∨ idx (x, y) + 4 <= idx q) as Hapart.
  { intros [x' y'] Hq Hne. apply elem_of_interior in Hq. subst idx. simpl.
    apply pixels_apart; [lia | lia | congruence]. }
  split.
  - intros Hin. exists (val (x, y)).
    pose proof (window_min_is_min im x y Hbytes) as Hmin.
    assert (is_byte (val (x, y))) as Hvb.
    { destruct Hmin as [Hel _].
      apply list_elem_of_fmap in Hel as (p & Heq & _).
      subst val. cbv beta. simpl. rewrite Heq. by apply gray_at_byte. }
    split; [exact Hmin |].
    assert (∀ c, 0 <= c < 3 →
      paint idx val (data im) (interior (width im) (height im))
        !! Z.to_nat (idx (x, y) + c) = Some (val (x, y))) as Hhit.
    { intros c Hc.
      replace (Some (val (x, y))) with (Some (clamp8 (val (x, y))))
        by (by rewrite clamp8_byte).
      apply paint_lookup_hit; [subst idx; simpl; lia | | lia | |].
      - subst idx; simpl. nia.
      - intros q Hq. destruct (decide (q = (x, y))) as [-> | Hne];
          [by left | right]. destruct (Hapart q Hq Hne); lia.
      - left. by apply elem_of_interior. }
    split; [apply (Hhit 0); lia |]. split; [apply (Hhit 1); lia |].
    split; [apply (Hhit 2); lia |].
    apply paint_lookup_miss. intros q Hq.
    change ((y * width im + x) * 4) with (idx (x, y)).
    destruct (decide (q = (x, y))) as [-> | Hne]; [lia |].
    destruct (Hapart q Hq Hne); lia.
  - intros Hout c Hc. apply paint_lookup_miss. intros q Hq.
    change ((y * width im + x) * 4) with (idx (x, y)).
    assert (q ≠ (x, y)) as Hne.
    { intros ->. by apply elem_of_interior in Hq. }
    destruct (Hapart q Hq Hne); lia.
Qed.

Lemma erosion_reads_the_original_witness :
  ∃ m, is_min_of m (pixel_luma spot_4x3 <$> neighbourhood 1 1) ∧
       data (morphological spot_4x3) !! 20%nat = Some m.
Proof.
  assert (0 <= 1 < width spot_4x3) as Hx by (simpl; lia).
  assert (0 <= 1 < height spot_4x3) as Hy by (simpl; lia).
  destruct (erosion_reads_the_original spot_4x3 1 1 spot_4x3_well_formed Hx Hy)
    as [Hinside _].
  destruct Hinside as (m & Hm & H0 & _); [simpl; lia |].
  exists m. split; [exact Hm | exact H0].
Defined.

(** *** binaryThreshold *)

Lemma above_spec g sum len :
  0 < len →
  above g (Qdiv (inject_Z sum) (Qmake len 4)) = (4 * sum <? g * len).
Proof.
  intros Hlen. destruct len as [| p | p]; try lia.
  unfold above, Qle_bool, Qdiv, Qmult, Qinv, inject_Z. simpl.
  rewrite Pos.mul_1_l.
  destruct (Z.leb_spec (g * Z.pos p) (sum * 4 * 1)),
           (Z.ltb_spec (4 * sum) (g * Z.pos p)); simpl; try done; lia.
Qed.

(** Loops over the pixels whose body reads its own pixel and stores one
    value, a function [G] of the pixel's luma, into its colour slots. *)
Section PixelLoop.
Context (G : Z → Z).

Definition px_body (a : list Z) (i : Z) : list Z :=
  let gray := gray_at a i in store3 a i (G gray) (G gray) (G gray).

Definition px_loop (a : list Z) (ks : list Z) : list Z :=
  foldl px_body a ((λ k, 4 * k) <$> ks).

Lemma px_loop_cons a k ks :
  px_loop a (k :: ks) = px_loop (px_body a (4 * k)) ks.
Proof. reflexivity. Qed.

Lemma length_px_loop ks a : length (px_loop a ks) = length a.
Proof.
  revert a. induction ks as [| k ks IH]; intros a; [done |].
  rewrite px_loop_cons, IH. apply length_store3.
Qed.

Lemma px_loop_miss ks a (j : nat) :
  (∀ k, k ∈ ks → Z.of_nat j < 4 * k ∨ 4 * k + 3 <= Z.of_nat j) →
  px_loop a ks !! j = a !! j.
Proof.
  revert a. induction ks as [| k ks IH]; intros a Hmiss; [done |].
  rewrite px_loop_cons, IH.
  - apply lookup_store3_ne, Hmiss, list_elem_of_here.
  - intros k' Hk'. apply Hmiss. by apply list_elem_of_further.
Qed.

Lemma get_store3_ne a i r g b j :
  0 <= j → (j < i ∨ i + 3 <= j) → get (store3 a i r g b) j = get a j.
Proof.
  intros Hj Hne. unfold get. destruct (Z.ltb_spec j 0); [done |].
  rewrite !list_lookup_total_alt, lookup_store3_ne; [done | lia].
Qed.

Lemma px_loop_hit ks a k (c : Z) :
  NoDup ks → k ∈ ks → 0 <= k → 4 * k + 2 < Z.of_nat (length a) →
  0 <= c < 3 →
  px_loop a ks !! Z.to_nat (4 * k + c) =
    Some (clamp8 (G (gray_at a (4 * k)))).
Proof.
  intros Hnd Hin Hk Hlen Hc. revert a Hlen.
  induction Hnd as [| k0 ks Hk0 Hnd IH]; intros a Hlen.
  - by apply elem_of_nil in Hin.
  - rewrite px_loop_cons. apply elem_of_cons in Hin as [-> | Hin].
    + rewrite px_loop_miss.
      * unfold px_body. rewrite (lookup_store3_eq a (4 * k0) _ _ _ c) by lia.
        by destruct (c =? 0), (c =? 1).
      * intros k' Hk'. assert (k' ≠ k0) by congruence. lia.
    + rewrite IH; [| done | unfold px_body; by rewrite length_store3].
      assert (k ≠ k0) as Hne by congruence.
      unfold px_body, gray_at. by rewrite !get_store3_ne by lia.
Qed.
End PixelLoop.

Lemma for_step4_pixels n :
  0 <= n → for_step4 (n * 4) = (λ k, 4 * k) <$> seqZ 0 n.
Proof.
  intros Hn. unfold for_step4. do 2 f_equal.
  replace (n * 4 + 3) with (3 + n * 4) by lia.
  rewrite Z.div_add by lia. reflexivity.
Qed.

(** The lumas of the pixels of an array, in order, and their sum. *)
Definition lumas (a : list Z) : list Z :=
  gray_at a <$> for_step4 (Z.of_nat (length a)).

Definition total (l : list Z) : Z := foldl Z.add 0 l.

Definition threshold_of (a : list Z) : Q :=
  Qdiv (inject_Z (total (lumas a))) (Qmake (Z.of_nat (length a)) 4).

Definition binary_of (threshold : Q) (gray : Z) : Z :=
  if above gray threshold then 255 else 0.

Lemma total_lumas a :
  foldl (λ sum i, sum + gray_at a i) 0 (for_step4 (Z.of_nat (length a))) =
  total (lumas a).
Proof. unfold total, lumas. by rewrite foldl_fmap. Qed.

Lemma binaryThreshold_px_loop im :
  data (binaryThreshold im) =
  px_loop (binary_of (threshold_of (data im))) (data im)
    (seqZ 0 ((Z.of_nat (length (data im)) + 3) / 4)).
Proof.
  unfold binaryThreshold. cbv zeta. rewrite total_lumas. reflexivity.
Qed.

Lemma foldl_add_shift l a : foldl Z.add a l = a + foldl Z.add 0 l.
Proof.
  revert a. induction l as [| v l IH]; intros a; simpl; [lia |].
  rewrite (IH (a + v)), (IH (0 + v)). lia.
Qed.

Lemma total_cons v l : total (v :: l) = v + total l.
Proof. unfold total. simpl. apply foldl_add_shift. Qed.

(** Some element is not above the mean. *)
Lemma below_mean_exists l T N :
  l ≠ [] → total l * N <= T * Z.of_nat (length l) →
  ∃ g, g ∈ l ∧ g * N <= T.
Proof.
  induction l as [| g l IH]; intros Hne Hsum; [done |].
  destruct (Z_le_gt_dec (g * N) T) as [Hle | Hgt].
  - exists g. split; [apply list_elem_of_here | done].
  - rewrite total_cons in Hsum. simpl length in Hsum.
    destruct l as [| g' l].
    + unfold total in Hsum. simpl in Hsum. lia.
    + destruct IH as (g0 & Hin & Hle); [done | nia |].
      exists g0. split; [by apply list_elem_of_further | done].
Qed.

Lemma total_bounds l :
  Forall is_byte l →
  0 <= total l <= 255 * Z.of_nat (length l) ∧
  (0 ∈ l → total l <= 255 * (Z.of_nat (length l) - 1)).
Proof.
  induction 1 as [| v l Hv _ IH]; [| rewrite total_cons; simpl length].
  - split; [unfold total; simpl; lia |].
    intros H0. by apply elem_of_nil in H0.
  - unfold is_byte in Hv. destruct IH as [IH1 IH2]. split; [lia |].
    intros H0. apply elem_of_cons in H0 as [<- | H0]; [lia |].
    specialize (IH2 H0). lia.
Qed.

Lemma pixels_of_length (a : list Z) n :
  Z.of_nat (length a) = n * 4 →
  seqZ 0 ((Z.of_nat (length a) + 3) / 4) = seqZ 0 n.
Proof.
  intros ->. f_equal. replace (n * 4 + 3) with (3 + n * 4) by lia.
  by rewrite Z.div_add by lia.
Qed.

Lemma binary_of_cases threshold g :
  binary_of threshold g = 0 ∨ binary_of threshold g = 255.
Proof. unfold binary_of. destruct (above g threshold); auto. Qed.

Lemma px_loop_pixel G (a : list Z) n k c :
  Z.of_nat (length a) = n * 4 → 0 <= k < n → 0 <= c < 3 →
  px_loop G a (seqZ 0 ((Z.of_nat (length a) + 3) / 4)) !! Z.to_nat (4 * k + c)
  = Some (clamp8 (G (gray_at a (4 * k)))).
Proof.
  intros Hlen Hk Hc. rewrite (pixels_of_length a n Hlen).
  apply px_loop_hit; [apply NoDup_seqZ | | lia | lia | lia].
  apply elem_of_seqZ. lia.
Qed.

Lemma binaryThreshold_pixel im n k c :
  Z.of_nat (length (data im)) = n * 4 → 0 <= k < n → 0 <= c < 3 →
  data (binaryThreshold im) !! Z.to_nat (4 * k + c) =
  Some (binary_of (threshold_of (data im)) (gray_at (data im) (4 * k))).
Proof.
  intros Hlen Hk Hc. rewrite binaryThreshold_px_loop.
  rewrite (px_loop_pixel _ _ n) by done. f_equal.
  destruct (binary_of_cases (threshold_of (data im))
              (gray_at (data im) (4 * k))) as [-> | ->]; reflexivity.
Qed.

Lemma length_binaryThreshold im :
  length (data (binaryThreshold im)) = length (data im).
Proof. apply binaryThreshold_frame. Qed.

Lemma length_lumas a n :
  Z.of_nat (length a) = n * 4 → 0 <= n → Z.of_nat (length (lumas a)) = n.
Proof.
  intros Hlen Hn. unfold lumas, for_step4.
  rewrite !length_fmap, (pixels_of_length a n Hlen), length_seqZ. lia.
Qed.

Lemma elem_of_for_step4 (a : list Z) n i :
  Z.of_nat (length a) = n * 4 →
  i ∈ for_step4 (Z.of_nat (length a)) → ∃ k, i = 4 * k ∧ 0 <= k < n.
Proof.
  intros Hlen Hi. unfold for_step4 in Hi.
  rewrite (pixels_of_length a n Hlen) in Hi.
  apply list_elem_of_fmap in Hi as (k & -> & Hk).
  apply elem_of_seqZ in Hk. exists k. lia.
Qed.

Lemma luma_binary v : v = 0 ∨ v = 255 → luma v v v = v.
Proof. intros [-> | ->]; [apply luma_black | apply luma_white]. Qed.

(** After the filter, the luma of a pixel is the value it was given. *)
Lemma gray_at_binaryThreshold im n k :
  Z.of_nat (length (data im)) = n * 4 → 0 <= k < n →
  gray_at (data (binaryThreshold im)) (4 * k) =
  binary_of (threshold_of (data im)) (gray_at (data im) (4 * k)).
Proof.
  intros Hlen Hk.
  set (v := binary_of (threshold_of (data im)) (gray_at (data im) (4 * k))).
  assert (∀ c, 0 <= c < 3 →
            get (data (binaryThreshold im)) (4 * k + c) = v) as Hget.
  { intros c Hc. apply get_lookup; [lia |].
    by apply (binaryThreshold_pixel im n). }
  pose proof (Hget 0 ltac:(lia)) as H0. rewrite Z.add_0_r in H0.
  unfold gray_at at 1. rewrite H0, (Hget 1), (Hget 2) by lia.
  apply luma_binary, binary_of_cases.
Qed.

Lemma lumas_binaryThreshold im n :
  Z.of_nat (length (data im)) = n * 4 →
  lumas (data (binaryThreshold im)) =
  binary_of (threshold_of (data im)) <$> lumas (data im).
Proof.
  intros Hlen. unfold lumas. rewrite length_binaryThreshold.
  rewrite <- list_fmap_compose. apply list_fmap_ext. intros j i Hi.
  apply list_elem_of_lookup_2, (elem_of_for_step4 _ n) in Hi
    as (k & -> & Hk); [| done].
  by apply (gray_at_binaryThreshold im n).
Qed.

(** The value given to a pixel is one it would be given again. *)
Lemma binary_of_stable im n g :
  Z.of_nat (length (data im)) = n * 4 → 0 < n →
  let v := binary_of (threshold_of (data im)) g in
  binary_of (threshold_of (data (binaryThreshold im))) v = v.
Proof.
  intros Hlen Hn v.
  set (G := binary_of (threshold_of (data im))).
  assert (Forall is_byte (G <$> lumas (data im))) as Hbytes.
  { apply Forall_fmap, Forall_forall. intros g' _. simpl.
    destruct (binary_of_cases (threshold_of (data im)) g') as [E | E];
      unfold G, is_byte; rewrite E; lia. }
  assert (0 ∈ G <$> lumas (data im)) as Hzero.
  { destruct (below_mean_exists (lumas (data im)) (total (lumas (data im))) n)
      as (g0 & Hin & Hle).
    - intros Hnil. apply (f_equal length) in Hnil.
      pose proof (length_lumas _ n Hlen ltac:(lia)). simpl in Hnil. lia.
    - rewrite (length_lumas _ n Hlen) by lia. lia.
    - apply list_elem_of_fmap. exists g0. split; [| done].
      unfold G, binary_of, threshold_of. rewrite above_spec by lia.
      destruct (Z.ltb_spec (4 * total (lumas (data im)))
                  (g0 * Z.of_nat (length (data im)))); [lia | done]. }
  destruct (total_bounds _ Hbytes) as [Hlo Hhi]. specialize (Hhi Hzero).
  rewrite length_fmap, (length_lumas _ n Hlen) in Hlo, Hhi by lia.
  unfold binary_of at 1, threshold_of.
  rewrite (lumas_binaryThreshold im n Hlen), length_binaryThreshold.
  rewrite above_spec by lia. fold G in Hlo, Hhi |- *.
  destruct (binary_of_cases (threshold_of (data im)) g) as [E | E];
    subst v; rewrite E.
  - destruct (Z.ltb_spec (4 * total (G <$> lumas (data im)))
                (0 * Z.of_nat (length (data im)))); [lia | done].
  - destruct (Z.ltb_spec (4 * total (G <$> lumas (data im)))
                (255 * Z.of_nat (length (data im)))); [done | lia].
Qed.

(** The mean luma of a bitmap: the sum of the lumas of its pixels over
    their number, as an exact fraction. *)
Definition mean_luma (a : list Z) : Q :=
  Qdiv (inject_Z (total (lumas a))) (inject_Z (Z.of_nat (length (lumas a)))).

Lemma binary_of_mean (a : list Z) n g :
  Z.of_nat (length a) = n * 4 → 0 < n →
  binary_of (threshold_of a) g = 255 ↔ Qlt (mean_luma a) (inject_Z g).
Proof.
  intros Hlen Hn. unfold binary_of, threshold_of, mean_luma.
  rewrite above_spec, (length_lumas a n Hlen), Hlen by lia.
  destruct n as [| p | p]; try lia.
  unfold Qlt, Qdiv, Qmult, Qinv, inject_Z. simpl. rewrite Pos.mul_1_l.
  destruct (Z.ltb_spec (4 * total (lumas a)) (g * (Z.pos p * 4)));
    split; intros; (lia || done).
Qed.

Lemma image_eq im1 im2 :
  data im1 = data im2 → width im1 = width im2 → height im1 = height im2 →
  im1 = im2.
Proof. destruct im1, im2. simpl. by intros -> -> ->. Qed.

(** C4: on a well-formed bitmap (so with at least one pixel), the red,
    green and blue bytes of every pixel of the thresholded bitmap are 0 or
    255, and 255 exactly when the luma of that pixel exceeds the mean luma
    of the bitmap; thresholding the result again changes nothing. *)
Theorem binary_threshold_two_valued_and_idempotent (im : ImageData) :
  well_formed im →
  (∀ k c, 0 <= k < width im * height im → 0 <= c < 3 →
     ∃ v, data (binaryThreshold im) !! Z.to_nat (4 * k + c) = Some v ∧
          (v = 0 ∨ v = 255) ∧
          (v = 255 ↔
           Qlt (mean_luma (data im)) (inject_Z (gray_at (data im) (4 * k))))) ∧
  binaryThreshold (binaryThreshold im) = binaryThreshold im.
Proof.
  intros [Hw Hh Hlen _].
  set (n := width im * height im) in *. assert (0 < n) as Hn by (subst n; nia).
  split.
  - intros k c Hk Hc.
    exists (binary_of (threshold_of (data im)) (gray_at (data im) (4 * k))).
    split; [by apply (binaryThreshold_pixel im n) |].
    split; [apply binary_of_cases | by apply (binary_of_mean _ n)].
  - assert (Z.of_nat (length (data (binaryThreshold im))) = n * 4) as Hlen1
      by (by rewrite length_binaryThreshold).
    apply image_eq; [| done | done]. apply list_eq. intros j.
    destruct (decide (j < length (data im))%nat) as [Hj | Hj].
    + pose proof (Nat.div_mod_eq j 4) as Hdm.
      pose proof (Nat.mod_upper_bound j 4 ltac:(lia)) as Hc.
      destruct (decide (j `mod` 4 = 3)%nat) as [H3 | H3].
      * rewrite Hdm, H3. apply (binaryThreshold_frame (binaryThreshold im)).
      * replace j with (Z.to_nat (4 * Z.of_nat (j / 4) + Z.of_nat (j `mod` 4)))
          by lia.
        rewrite (binaryThreshold_pixel (binaryThreshold im) n),
                (binaryThreshold_pixel im n) by lia.
        apply (f_equal Some).
        rewrite (gray_at_binaryThreshold im n _ Hlen) by lia.
        exact (binary_of_stable im n _ Hlen Hn).
    + rewrite (proj2 (lookup_ge_None _ _)), (proj2 (lookup_ge_None _ _));
        [done | lia | rewrite !length_binaryThreshold; lia].
Qed.

Lemma binary_threshold_two_valued_and_idempotent_witness :
  well_formed spot_4x3 ∧
  binaryThreshold (binaryThreshold spot_4x3) = binaryThreshold spot_4x3.
Proof.
  split; [exact spot_4x3_well_formed |].
  exact (proj2 (binary_threshold_two_valued_and_idempotent
                  spot_4x3 spot_4x3_well_formed)).
Defined.

(** *** sharpening *)

(** C5: the interior pixel (2, 1) of the four-by-three bitmap [spot_4x3].
    The kernel sum over the nine pixels of the bitmap that was passed in is
    90 for each channel; the filter stores 10, because its sum runs over the
    array it is writing, where pixel (1, 1) already holds its sharpened
    value 190 instead of 110. *)
Theorem sharpening_reads_its_own_output :
  well_formed spot_4x3 ∧
  convolve (data spot_4x3) (width spot_4x3) 2 1 = (90, 90, 90) ∧
  data (sharpening spot_4x3) !! 20%nat = Some 190 ∧
  data (sharpening spot_4x3) !! 24%nat = Some 10 ∧
  data (sharpening spot_4x3) !! 25%nat = Some 10 ∧
  data (sharpening spot_4x3) !! 26%nat = Some 10.
Proof. split; [exact spot_4x3_well_formed |]. by vm_compute. Qed.

(** *** Loops that rewrite the colour bytes of one pixel per round *)

(** The byte that each filter ends up storing for a colour byte [v]. *)
Definition inverted (v : Z) : Z := clamp8 (255 - v).
Definition stretched (v : Z) : Z := Uint63.to_Z (ToUint8Clamp (stretch v)).

Lemma get_store_ne a i v j : j ≠ i → get (store a i v) j = get a j.
Proof.
  intros Hne. unfold get. destruct (Z.ltb_spec j 0); [done |].
  rewrite !list_lookup_total_alt, lookup_store_ne; [done | lia].
Qed.

Lemma get_store_num_ne a i x j : j ≠ i → get (store_num a i x) j = get a j.
Proof.
  intros Hne. unfold get. destruct (Z.ltb_spec j 0); [done |].
  rewrite !list_lookup_total_alt, lookup_store_num_ne; [done | lia].
Qed.

Lemma lookup_store_num_eq a i x :
  0 <= i < Z.of_nat (length a) →
  store_num a i x !! Z.to_nat i = Some (Uint63.to_Z (ToUint8Clamp x)).
Proof.
  intros Hi. unfold store_num. destruct (Z.ltb_spec i 0); [lia |].
  apply list_lookup_insert_eq. lia.
Qed.

(** One round of a loop that maps the three colour bytes at [i]. *)
Definition every_channel (step : list Z → Z → list Z) (F : Z → Z) : Prop :=
  ∀ a i,
    length (step a i) = length a ∧
    (∀ j : nat, (Z.of_nat j < i ∨ i + 3 <= Z.of_nat j) → step a i !! j = a !! j) ∧
    (0 <= i → i + 2 < Z.of_nat (length a) → ∀ c, 0 <= c < 3 →
       step a i !! Z.to_nat (i + c) = Some (F (get a (i + c)))).

Lemma every_channel_loop step F ks a k c :
  every_channel step F →
  NoDup ks → k ∈ ks → 0 <= k → 4 * k + 2 < Z.of_nat (length a) → 0 <= c < 3 →
  foldl step a ((λ k, 4 * k) <$> ks) !! Z.to_nat (4 * k + c) =
    Some (F (get a (4 * k + c))).
Proof.
  intros Hstep Hnd Hin Hk Hlen Hc.
  assert (∀ ks a (j : nat),
            (∀ k, k ∈ ks → Z.of_nat j < 4 * k ∨ 4 * k + 3 <= Z.of_nat j) →
            foldl step a ((λ k, 4 * k) <$> ks) !! j = a !! j) as Hmiss.
  { clear -Hstep. induction ks as [| k ks IH]; intros a j Hj; [done |].
    simpl. rewrite IH by (intros k' Hk'; apply Hj; by apply list_elem_of_further).
    apply (proj1 (proj2 (Hstep a (4 * k)))), Hj, list_elem_of_here. }
  revert a Hlen. induction Hnd as [| k0 ks Hk0 Hnd IH]; intros a Hlen.
  - by apply elem_of_nil in Hin.
  - simpl. apply elem_of_cons in Hin as [-> | Hin].
    + rewrite Hmiss.
      * apply (proj2 (proj2 (Hstep a (4 * k0)))); lia.
      * intros k' Hk'. assert (k' ≠ k0) by congruence. lia.
    + assert (k ≠ k0) as Hne by congruence.
      rewrite IH; [| done | by rewrite (proj1 (Hstep a (4 * k0)))].
      f_equal. f_equal. unfold get.
      destruct (Z.ltb_spec (4 * k + c) 0); [done |].
      rewrite !list_lookup_total_alt.
      by rewrite (proj1 (proj2 (Hstep a (4 * k0)))) by lia.
Qed.

Lemma invert_step :
  every_channel
    (λ a i, let a := store a i (255 - get a i) in
            let a := store a (i + 1) (255 - get a (i + 1)) in
            store a (i + 2) (255 - get a (i + 2)))
    inverted.
Proof.
  intros a i. cbv zeta. split; [by rewrite !length_store |]. split.
  - intros j Hj. rewrite !lookup_store_ne; [done | lia..].
  - intros Hi Hlen c Hc. unfold inverted.
    rewrite !get_store_ne by lia.
    assert (c = 0 ∨ c = 1 ∨ c = 2) as [-> | [-> | ->]] by lia.
    + rewrite !lookup_store_ne by lia. rewrite Z.add_0_r.
      apply lookup_store_eq. lia.
    + rewrite lookup_store_ne by lia. apply lookup_store_eq.
      rewrite length_store. lia.
    + apply lookup_store_eq. rewrite !length_store. lia.
Qed.

Lemma stretch_step :
  every_channel
    (λ a i, let a := store_num a i (stretch (get a i)) in
            let a := store_num a (i + 1) (stretch (get a (i + 1))) in
            store_num a (i + 2) (stretch (get a (i + 2))))
    stretched.
Proof.
  intros a i. cbv zeta. split; [by rewrite !length_store_num |]. split.
  - intros j Hj. rewrite !lookup_store_num_ne; [done | lia..].
  - intros Hi Hlen c Hc. unfold stretched.
    rewrite !get_store_num_ne by lia.
    assert (c = 0 ∨ c = 1 ∨ c = 2) as [-> | [-> | ->]] by lia.
    + rewrite !lookup_store_num_ne by lia. rewrite Z.add_0_r.
      apply lookup_store_num_eq. lia.
    + rewrite lookup_store_num_ne by lia. apply lookup_store_num_eq.
      rewrite length_store_num. lia.
    + apply lookup_store_num_eq. rewrite !length_store_num. lia.
Qed.

(** A colour slot of a well-formed bitmap after such a loop. *)
Lemma channel_lookup step F (a : list Z) n k c :
  every_channel step F →
  Z.of_nat (length a) = n * 4 → 0 <= k < n → 0 <= c < 3 →
  foldl step a (for_step4 (Z.of_nat (length a))) !! Z.to_nat (4 * k + c) =
    Some (F (get a (4 * k + c))).
Proof.
  intros Hstep Hlen Hk Hc. unfold for_step4.
  rewrite (pixels_of_length a n Hlen).
  apply (every_channel_loop step F); [done | apply NoDup_seqZ | | lia..].
  apply elem_of_seqZ. lia.
Qed.

(** Two arrays of [n] pixels that agree on every slot are equal. *)
Lemma slots_eq (a b : list Z) n :
  Z.of_nat (length a) = n * 4 → Z.of_nat (length b) = n * 4 →
  (∀ k c, 0 <= k < n → 0 <= c < 4 →
     a !! Z.to_nat (4 * k + c) = b !! Z.to_nat (4 * k + c)) →
  a = b.
Proof.
  intros Ha Hb Hslots. apply list_eq. intros j.
  destruct (decide (j < length a)%nat) as [Hj | Hj].
  - pose proof (Nat.div_mod_eq j 4) as Hdm.
    pose proof (Nat.mod_upper_bound j 4 ltac:(lia)) as Hc.
    replace j with (Z.to_nat (4 * Z.of_nat (j / 4) + Z.of_nat (j `mod` 4)))
      by lia.
    apply Hslots; lia.
  - rewrite (proj2 (lookup_ge_None a j)), (proj2 (lookup_ge_None b j)); [done | lia..].
Qed.

(** A slot of a well-formed array holds a byte, which [get] reads. *)
Lemma lookup_slot (a : list Z) n k c :
  Z.of_nat (length a) = n * 4 → 0 <= k < n → 0 <= c < 4 →
  a !! Z.to_nat (4 * k + c) = Some (get a (4 * k + c)).
Proof.
  intros Hlen Hk Hc.
  destruct (a !! Z.to_nat (4 * k + c)) as [v |] eqn:Hv.
  - by rewrite (get_lookup a (4 * k + c) v ltac:(lia) Hv).
  - apply lookup_ge_None in Hv. lia.
Qed.

Lemma alpha_slot (a a' : list Z) k :
  0 <= k → frame a a' → a' !! Z.to_nat (4 * k + 3) = a !! Z.to_nat (4 * k + 3).
Proof.
  intros Hk [_ Halpha].
  replace (Z.to_nat (4 * k + 3)) with (4 * Z.to_nat k + 3)%nat by lia.
  apply Halpha.
Qed.

(** *** colorInversion *)

Lemma colorInversion_slot im n k c :
  Z.of_nat (length (data im)) = n * 4 → 0 <= k < n → 0 <= c < 3 →
  data (colorInversion im) !! Z.to_nat (4 * k + c) =
    Some (inverted (get (data im) (4 * k + c))).
Proof.
  intros Hlen Hk Hc. unfold colorInversion. cbn [data].
  by apply (channel_lookup _ inverted (data im) n k c invert_step).
Qed.

Lemma inverted_twice v : is_byte v → inverted (inverted v) = v.
Proof. unfold is_byte, inverted, clamp8. lia. Qed.

(** Inverting the colours twice gives the bitmap back. *)
Theorem colorInversion_involutive (im : ImageData) :
  well_formed im → colorInversion (colorInversion im) = im.
Proof.
  intros [Hw Hh Hlen Hbytes].
  set (n := width im * height im) in *.
  assert (Z.of_nat (length (data (colorInversion im))) = n * 4) as Hlen1
    by (by rewrite (proj1 (colorInversion_frame im))).
  apply image_eq; [| done | done].
  apply (slots_eq _ _ n); [| done |].
  { by rewrite (proj1 (colorInversion_frame (colorInversion im))). }
  intros k c Hk Hc. destruct (decide (c = 3)) as [-> | Hc3].
  - rewrite (alpha_slot _ _ k ltac:(lia)
               (colorInversion_frame (colorInversion im))).
    apply (alpha_slot _ _ k ltac:(lia) (colorInversion_frame im)).
  - rewrite (colorInversion_slot (colorInversion im) n) by lia.
    rewrite (get_lookup (data (colorInversion im)) (4 * k + c) _ ltac:(lia)
               (colorInversion_slot im n k c Hlen Hk ltac:(lia))).
    rewrite (lookup_slot (data im) n) by lia. f_equal.
    apply inverted_twice, get_byte, Hbytes.
Qed.

Lemma colorInversion_involutive_witness :
  colorInversion (colorInversion spot_4x3) = spot_4x3.
Proof. exact (colorInversion_involutive spot_4x3 spot_4x3_well_formed). Defined.

(** *** adaptiveHistogram *)

Lemma luma_grey_table :
  forallb (λ g, luma g g g =? g) bytes = true.
Proof. vm_compute. reflexivity. Qed.

(** The luma of a grey pixel is its grey value. *)
Lemma luma_grey g : is_byte g → luma g g g = g.
Proof.
  intros Hg. apply Z.eqb_eq.
  exact (forallb_In _ _ g luma_grey_table (In_bytes g Hg)).
Qed.

Lemma adaptiveHistogram_slot im n k c :
  Z.of_nat (length (data im)) = n * 4 → Forall is_byte (data im) →
  0 <= k < n → 0 <= c < 3 →
  data (adaptiveHistogram im) !! Z.to_nat (4 * k + c) =
    Some (gray_at (data im) (4 * k)).
Proof.
  intros Hlen Hbytes Hk Hc. unfold adaptiveHistogram. cbn [data].
  change (foldl _ (data im) _)
    with (px_loop (λ g, g) (data im)
            (seqZ 0 ((Z.of_nat (length (data im)) + 3) / 4))).
  rewrite (px_loop_pixel _ _ n) by done.
  by rewrite clamp8_byte by (by apply gray_at_byte).
Qed.

(** The grayscale filter gives the three colour bytes of every pixel the
    luma of that pixel, and applying it to its own output changes
    nothing. *)
Theorem adaptiveHistogram_grey_and_idempotent (im : ImageData) :
  well_formed im →
  (∀ k c, 0 <= k < width im * height im → 0 <= c < 3 →
     data (adaptiveHistogram im) !! Z.to_nat (4 * k + c) =
       Some (luma (get (data im) (4 * k)) (get (data im) (4 * k + 1))
                  (get (data im) (4 * k + 2)))) ∧
  adaptiveHistogram (adaptiveHistogram im) = adaptiveHistogram im.
Proof.
  intros [Hw Hh Hlen Hbytes].
  set (n := width im * height im) in *.
  split; [intros k c Hk Hc; by apply (adaptiveHistogram_slot im n) |].
  assert (Z.of_nat (length (data (adaptiveHistogram im))) = n * 4) as Hlen1
    by (by rewrite (proj1 (adaptiveHistogram_frame im))).
  assert (∀ k c, 0 <= k < n → 0 <= c < 3 →
            get (data (adaptiveHistogram im)) (4 * k + c) =
            gray_at (data im) (4 * k)) as Hget.
  { intros k c Hk Hc. apply get_lookup; [lia |].
    by apply (adaptiveHistogram_slot im n). }
  assert (Forall is_byte (data (adaptiveHistogram im))) as Hbytes1.
  { apply Forall_lookup. intros j v Hv.
    assert (j < length (data (adaptiveHistogram im)))%nat as Hj
      by (by apply lookup_lt_Some in Hv).
    pose proof (Nat.div_mod_eq j 4) as Hdm.
    pose proof (Nat.mod_upper_bound j 4 ltac:(lia)) as Hc.
    destruct (decide (j `mod` 4 = 3)%nat) as [H3 | H3].
    - rewrite Hdm, H3, (proj2 (adaptiveHistogram_frame im)) in Hv.
      by apply (Forall_lookup_1 _ _ _ _ Hbytes Hv).
    - replace j with (Z.to_nat (4 * Z.of_nat (j / 4) + Z.of_nat (j `mod` 4)))
        in Hv by lia.
      rewrite (adaptiveHistogram_slot im n) in Hv by (done || lia).
      injection Hv as <-. by apply gray_at_byte. }
  apply image_eq; [| done | done].
  apply (slots_eq _ _ n); [| done |].
  { by rewrite (proj1 (adaptiveHistogram_frame (adaptiveHistogram im))). }
  intros k c Hk Hc. destruct (decide (c = 3)) as [-> | Hc3].
  - apply (alpha_slot _ _ k ltac:(lia)
             (adaptiveHistogram_frame (adaptiveHistogram im))).
  - rewrite (adaptiveHistogram_slot (adaptiveHistogram im) n) by (done || lia).
    rewrite (adaptiveHistogram_slot im n) by (done || lia).
    apply (f_equal Some). unfold gray_at at 1.
    pose proof (Hget k 0 Hk ltac:(lia)) as H0. rewrite Z.add_0_r in H0.
    rewrite H0, (Hget k 1), (Hget k 2) by lia.
    apply luma_grey. by apply gray_at_byte.
Qed.

Lemma adaptiveHistogram_grey_and_idempotent_witness :
  adaptiveHistogram (adaptiveHistogram spot_4x3) = adaptiveHistogram spot_4x3.
Proof.
  exact (proj2 (adaptiveHistogram_grey_and_idempotent
                  spot_4x3 spot_4x3_well_formed)).
Defined.

(** *** enhancedContrast *)

Lemma stretched_table :
  forallb (λ v,
    (0 <=? stretched v) && (stretched v <=? 255) &&
    (if v <? 128 then stretched v <=? v else v <=? stretched v) &&
    ((v =? 255) || (stretched v <=? stretched (v + 1)))) bytes = true.
Proof. vm_compute. reflexivity. Qed.

Lemma stretched_facts v :
  is_byte v →
  is_byte (stretched v) ∧
  (v < 128 → stretched v <= v) ∧ (128 <= v → v <= stretched v) ∧
  (v < 255 → stretched v <= stretched (v + 1)).
Proof.
  intros Hv. pose proof (forallb_In _ _ v stretched_table (In_bytes v Hv)) as H.
  cbv beta in H.
  apply andb_prop in H as [H Hstep]. apply andb_prop in H as [H Hside].
  apply andb_prop in H as [Hlo Hhi].
  unfold is_byte.
  destruct (Z.ltb_spec v 128); destruct (Z.eqb_spec v 255);
    simpl in Hstep; lia.
Qed.

Lemma stretched_steps (d : nat) v :
  is_byte v → is_byte (v + Z.of_nat d) →
  stretched v <= stretched (v + Z.of_nat d).
Proof.
  unfold is_byte. induction d as [| d IH]; intros Hv Hvd.
  - by rewrite Z.add_0_r.
  - transitivity (stretched (v + Z.of_nat d)); [apply IH; lia |].
    replace (v + Z.of_nat (S d)) with (v + Z.of_nat d + 1) by lia.
    apply stretched_facts; unfold is_byte; lia.
Qed.

Lemma stretched_monotone v v' :
  is_byte v → is_byte v' → v <= v' → stretched v <= stretched v'.
Proof.
  intros Hv Hv' Hle.
  replace v' with (v + Z.of_nat (Z.to_nat (v' - v))) in * by lia.
  by apply stretched_steps.
Qed.



(** *** Every filter returns a well-formed bitmap *)

Lemma foldl_invariant {A B} (P : A → Prop) (f : A → B → A) l a :
  (∀ a x, P a → P (f a x)) → P a → P (foldl f a l).
Proof.
  intros Hf. revert a. induction l as [| x l IH]; intros a Ha; [done |].
  simpl. by apply IH, Hf.
Qed.

Lemma clamp8_is_byte v : is_byte (clamp8 v).
Proof. unfold is_byte, clamp8. lia. Qed.

Lemma bytes_store a i v : Forall is_byte a → Forall is_byte (store a i v).
Proof.
  intros Ha. unfold store. destruct (i <? 0); [done |].
  apply Forall_insert; [done | apply clamp8_is_byte].
Qed.

Lemma bytes_store3 a i r g b :
  Forall is_byte a → Forall is_byte (store3 a i r g b).
Proof. intros Ha. unfold store3. by do 3 apply bytes_store. Qed.

Lemma bytes_store_stretch a i v :
  Forall is_byte a → is_byte v → Forall is_byte (store_num a i (stretch v)).
Proof.
  intros Ha Hv. unfold store_num. destruct (i <? 0); [done |].
  apply Forall_insert; [done | apply (stretched_facts v Hv)].
Qed.

(** Each of the seven strategies' filters turns a well-formed bitmap into
    a well-formed bitmap: sides, length and the range of the bytes are
    kept. *)
Theorem filters_keep_well_formed (s : ProcessingStrategy) (im : ImageData) :
  s ∈ processingStrategies → well_formed im → well_formed (fn s im).
Proof.
  intros Hs Hwf.
  destruct (proj1 (Forall_forall _ _) strategies_frame s Hs im)
    as (Hw & Hh & Hlen & _).
  destruct Hwf as [Hw0 Hh0 Hlen0 Hbytes].
  split; [by rewrite Hw | by rewrite Hh | by rewrite Hlen, Hw, Hh |].
  unfold processingStrategies in Hs.
  repeat (apply elem_of_cons in Hs as [-> | Hs]); [.. | by apply elem_of_nil in Hs];
    cbn [fn]; [done | ..];
    unfold enhancedContrast, adaptiveHistogram, binaryThreshold, sharpening,
      colorInversion, morphological; cbn [data].
  - apply (foldl_invariant (Forall is_byte)); [| done]. intros a i Ha.
    cbv zeta. repeat apply bytes_store_stretch; try done;
      apply get_byte; repeat apply bytes_store_stretch; try done;
      apply get_byte; repeat apply bytes_store_stretch; try done;
      by apply get_byte.
  - apply (foldl_invariant (Forall is_byte)); [| done]. intros a i Ha.
    by apply bytes_store3.
  - apply (foldl_invariant (Forall is_byte)); [| done]. intros a i Ha.
    by apply bytes_store3.
  - apply (foldl_invariant (Forall is_byte)); [| done]. intros a y Ha.
    apply (foldl_invariant (Forall is_byte)); [| done]. intros a' x Ha'.
    destruct (convolve a' (width im) x y) as [[r g] b].
    by apply bytes_store3.
  - apply (foldl_invariant (Forall is_byte)); [| done]. intros a i Ha.
    cbv zeta. by do 3 apply bytes_store.
  - apply (foldl_invariant (Forall is_byte)); [| done]. intros a y Ha.
    apply (foldl_invariant (Forall is_byte)); [| done]. intros a' x Ha'.
    by apply bytes_store3.
Qed.

Lemma filters_keep_well_formed_witness :
  well_formed (sharpening spot_4x3).
Proof.
  apply (filters_keep_well_formed (mkStrategy "Sharpening" 85 sharpening));
    [| exact spot_4x3_well_formed].
  apply (list_elem_of_lookup_2 _ 4%nat). reflexivity.
Defined.

(** *** Flat bitmaps and borders *)

(** Every pixel has the colour [(r, g, b)]. *)
Definition flat (a : list Z) (r g b : Z) : Prop :=
  ∀ k, 0 <= k → k * 4 + 3 < Z.of_nat (length a) →
    get a (k * 4) = r ∧ get a (k * 4 + 1) = g ∧ get a (k * 4 + 2) = b.

Lemma foldl_invariant_in {A B} (P : A → Prop) (f : A → B → A) l a :
  (∀ a x, x ∈ l → P a → P (f a x)) → P a → P (foldl f a l).
Proof.
  revert a. induction l as [| x l IH]; intros a Hf Ha; [done |].
  simpl. apply IH.
  - intros a' x' Hx'. apply Hf. by apply list_elem_of_further.
  - apply Hf; [apply list_elem_of_here | done].
Qed.

Lemma store_same (a : list Z) i v :
  0 <= i < Z.of_nat (length a) → get a i = v → is_byte v → store a i v = a.
Proof.
  intros Hi Hget Hv. unfold store. destruct (Z.ltb_spec i 0); [lia |].
  rewrite clamp8_byte by done. apply list_insert_id.
  unfold get in Hget. destruct (Z.ltb_spec i 0); [lia |].
  rewrite list_lookup_total_alt in Hget.
  destruct (a !! Z.to_nat i) as [u |] eqn:Hu; [by simpl in Hget; subst |].
  apply lookup_ge_None in Hu. lia.
Qed.

Lemma convolve_flat (a : list Z) w h x y r g b :
  Z.of_nat (length a) = w * h * 4 → flat a r g b →
  1 <= x <= w - 2 → 1 <= y <= h - 2 →
  convolve a w x y = (r, g, b).
Proof.
  intros Hlen Hflat Hx Hy.
  assert (∀ dx dy, -1 <= dx <= 1 → -1 <= dy <= 1 →
            get a (((y + dy) * w + (x + dx)) * 4) = r ∧
            get a (((y + dy) * w + (x + dx)) * 4 + 1) = g ∧
            get a (((y + dy) * w + (x + dx)) * 4 + 2) = b) as Hn.
  { intros dx dy Hdx Hdy. apply Hflat; nia. }
  unfold convolve. change (seqZ (-1) 3) with [-1; 0; 1]. cbn [foldl].
  destruct (Hn (-1) (-1)) as (-> & -> & ->); [lia | lia |].
  destruct (Hn 0 (-1)) as (-> & -> & ->); [lia | lia |].
  destruct (Hn 1 (-1)) as (-> & -> & ->); [lia | lia |].
  destruct (Hn (-1) 0) as (-> & -> & ->); [lia | lia |].
  destruct (Hn 0 0) as (-> & -> & ->); [lia | lia |].
  destruct (Hn 1 0) as (-> & -> & ->); [lia | lia |].
  destruct (Hn (-1) 1) as (-> & -> & ->); [lia | lia |].
  destruct (Hn 0 1) as (-> & -> & ->); [lia | lia |].
  destruct (Hn 1 1) as (-> & -> & ->); [lia | lia |].
  simpl. f_equal; [f_equal |]; lia.
Qed.

(** Sharpening leaves a bitmap of one colour as it is: the weights of the
    kernel add up to 1. *)
Theorem sharpening_keeps_flat (im : ImageData) (r g b : Z) :
  well_formed im → flat (data im) r g b → sharpening im = im.
Proof.
  intros [Hw Hh Hlen Hbytes] Hflat.
  apply image_eq; [| done | done].
  unfold sharpening. cbn [data].
  apply (foldl_invariant_in (λ a, a = data im)); [| done].
  intros a y Hy ->. apply elem_of_seqZ in Hy.
  apply (foldl_invariant_in (λ a, a = data im)); [| done].
  intros a x Hx ->. apply elem_of_seqZ in Hx.
  rewrite (convolve_flat (data im) (width im) (height im) x y r g b)
    by (done || lia).
  assert (0 <= y * width im + x) as Hp0 by nia.
  assert ((y * width im + x) * 4 + 3 < Z.of_nat (length (data im)))
    as Hp1 by nia.
  destruct (Hflat (y * width im + x) Hp0 Hp1) as (Hr & Hg & Hb).
  assert (is_byte r) as Hr' by (rewrite <- Hr; by apply get_byte).
  assert (is_byte g) as Hg' by (rewrite <- Hg; by apply get_byte).
  assert (is_byte b) as Hb' by (rewrite <- Hb; by apply get_byte).
  unfold is_byte in *.
  rewrite !Z.max_r, !Z.min_r by lia.
  unfold store3.
  rewrite (store_same (data im)) by (done || lia).
  rewrite (store_same (data im)) by (done || lia).
  apply store_same; (done || lia).
Qed.

(** Four by three, flat grey. *)
Definition flat_4x3 : ImageData :=
  mkImageData (concat (replicate 12 (grey 100))) 4 3.

Lemma flat_4x3_well_formed : well_formed flat_4x3.
Proof. split; [done | done | done | by apply Forall_byteb]. Qed.

Lemma flat_4x3_flat : flat (data flat_4x3) 100 100 100.
Proof.
  intros k Hk0 Hk.
  assert (k ∈ seqZ 0 12) as Hin by (apply elem_of_seqZ; simpl in Hk; lia).
  clear Hk0 Hk. revert k Hin. apply Forall_forall.
  repeat (apply Forall_cons_2; [by vm_compute |]). apply Forall_nil_2.
Qed.

Lemma sharpening_keeps_flat_witness : sharpening flat_4x3 = flat_4x3.
Proof.
  apply (sharpening_keeps_flat flat_4x3 100 100 100).
  - exact flat_4x3_well_formed.
  - exact flat_4x3_flat.
Defined.

(** A loop whose rounds write nowhere near slot [j] leaves it alone. *)
Lemma foldl_untouched {B} (f : list Z → B → list Z) (l : list B) a (j : nat) :
  (∀ a p, p ∈ l → f a p !! j = a !! j) → foldl f a l !! j = a !! j.
Proof.
  revert a. induction l as [| p l IH]; intros a Hf; [done |].
  simpl. rewrite IH.
  - apply Hf, list_elem_of_here.
  - intros a' p' Hp'. apply Hf. by apply list_elem_of_further.
Qed.

(** Sharpening keeps the four bytes of every pixel on the border. *)
Theorem sharpening_keeps_border (im : ImageData) (x y c : Z) :
  well_formed im →
  0 <= x < width im → 0 <= y < height im → 0 <= c < 4 →
  x = 0 ∨ x = width im - 1 ∨ y = 0 ∨ y = height im - 1 →
  data (sharpening im) !! Z.to_nat ((y * width im + x) * 4 + c) =
  data im !! Z.to_nat ((y * width im + x) * 4 + c).
Proof.
  intros [Hw Hh Hlen Hbytes] Hx Hy Hc Hborder.
  unfold sharpening. cbn [data].
  apply foldl_untouched. intros a y' Hy'. apply elem_of_seqZ in Hy'.
  apply foldl_untouched. intros a' x' Hx'. apply elem_of_seqZ in Hx'.
  destruct (convolve a' (width im) x' y') as [[r g] b].
  apply lookup_store3_ne.
  assert ((x, y) ≠ (x', y')) as Hne by (intros [= -> ->]; lia).
  destruct (pixels_apart (width im) x y x' y') as [H | H]; [lia | lia | done | |];
    rewrite Z2Nat.id by nia; lia.
Qed.

Lemma sharpening_keeps_border_witness :
  data (sharpening spot_4x3) !! 28%nat = Some 100.
Proof.
  exact (sharpening_keeps_border spot_4x3 3 1 0 spot_4x3_well_formed
           ltac:(simpl; lia) ltac:(simpl; lia) ltac:(lia)
           (or_intror (or_introl eq_refl))).
Defined.

(** *** Binary threshold of a bitmap of one colour *)

Lemma total_constant (g : Z) (l : list Z) :
  total ((λ _, g) <$> l) = g * Z.of_nat (length l).
Proof.
  induction l as [| v l IH]; [unfold total; simpl; lia |].
  rewrite fmap_cons, total_cons, IH. simpl length. lia.
Qed.

(** No pixel of a bitmap of one colour is brighter than the mean: the
    threshold filter turns the whole bitmap black. *)
Theorem binaryThreshold_flat_is_black (im : ImageData) (r g b k c : Z) :
  well_formed im → flat (data im) r g b →
  0 <= k < width im * height im → 0 <= c < 3 →
  data (binaryThreshold im) !! Z.to_nat (4 * k + c) = Some 0.
Proof.
  intros [Hw Hh Hlen Hbytes] Hflat Hk Hc.
  rewrite (binaryThreshold_pixel im (width im * height im)) by (done || lia).
  f_equal.
  assert (∀ i, i ∈ for_step4 (Z.of_nat (length (data im))) →
            gray_at (data im) i = luma r g b) as Hgray.
  { intros i Hi.
    apply (elem_of_for_step4 _ (width im * height im)) in Hi
      as (q & -> & Hq); [| lia].
    unfold gray_at. replace (4 * q) with (q * 4) by lia.
    destruct (Hflat q) as (-> & -> & ->); [lia | lia | done]. }
  assert (lumas (data im) =
          (λ _, luma r g b) <$> for_step4 (Z.of_nat (length (data im))))
    as Hlumas.
  { unfold lumas. apply list_fmap_ext. intros j i Hi.
    apply Hgray. by apply list_elem_of_lookup_2 in Hi. }
  unfold binary_of, threshold_of.
  rewrite above_spec by nia.
  rewrite Hlumas, total_constant.
  rewrite (Hgray (4 * k)).
  2:{ rewrite Hlen, (for_step4_pixels (width im * height im)) by nia.
      apply list_elem_of_fmap. exists k. split; [done |].
      apply elem_of_seqZ. lia. }
  replace (length (for_step4 (Z.of_nat (length (data im)))))
    with (Z.to_nat (width im * height im)).
  2:{ rewrite Hlen, (for_step4_pixels (width im * height im)) by nia.
      by rewrite length_fmap, length_seqZ. }
  rewrite Z2Nat.id by nia.
  destruct (Z.ltb_spec (4 * (luma r g b * (width im * height im)))
              (luma r g b * Z.of_nat (length (data im)))); [nia | done].
Qed.

Lemma binaryThreshold_flat_is_black_witness :
  data (binaryThreshold flat_4x3) !! 21%nat = Some 0.
Proof.
  exact (binaryThreshold_flat_is_black flat_4x3 100 100 100 5 1
           flat_4x3_well_formed flat_4x3_flat
           ltac:(simpl; lia) ltac:(lia)).
Defined.

End PreprocessingFacts.

(** ** Properties of the pipeline *)

Module PipelineFacts.
Import Number Preprocessing PreprocessingFacts.

(** What an observer of the collaborators sees: each call with what it
    was given and how it ended. *)
Inductive event :=
  | Progress (percent : Z) (label : string) (r : completion unit)
  | Decode (pixels : list Z) (w h : Z) (r : completion (option QRCode)).

(** Collaborators that also keep the list of the calls made so far, and
    otherwise behave as the ones they wrap. *)
Section Recording.
Context {W : Type}.
Variable onProgress : Z → string → heap W → heap W * completion unit.
Variable jsQR : list Z → Z → Z → heap W → heap W * completion (option QRCode).
Variable console_warn : string → exn → heap W → heap W.
Variable pause : heap W → heap W.

Definition plain (s : heap (W * list event)) : heap W :=
  mkHeap (world s).1 (source_bytes s).

Definition logged (log : list event) (s : heap W) : heap (W * list event) :=
  mkHeap (world s, log) (source_bytes s).

Definition rec_onProgress (percent : Z) (label : string)
    (s : heap (W * list event)) : heap (W * list event) * completion unit :=
  let '(s', r) := onProgress percent label (plain s) in
  (logged ((world s).2 ++ [Progress percent label r]) s', r).

Definition rec_jsQR (pixels : list Z) (w h : Z)
    (s : heap (W * list event)) :
    heap (W * list event) * completion (option QRCode) :=
  let '(s', r) := jsQR pixels w h (plain s) in
  (logged ((world s).2 ++ [Decode pixels w h r]) s', r).

Definition rec_console_warn (label : string) (e : exn)
    (s : heap (W * list event)) : heap (W * list event) :=
  logged (world s).2 (console_warn label e (plain s)).

Definition rec_pause (s : heap (W * list event)) : heap (W * list event) :=
  logged (world s).2 (pause (plain s)).
End Recording.

(** The calls of a run over the strategies [ss] on the bitmap [im], and
    its result: strategies are taken in order and each is given [im]; a
    strategy whose progress report throws is given up without a decode; a
    decode that throws or finds nothing is followed by the next strategy; a
    decode that finds a code ends the run with that code; the run over no
    strategy makes no call and finds nothing. *)
Inductive run_of (im : ImageData) :
    list ProcessingStrategy → list event → option QRResult → Prop :=
  | run_exhausted : run_of im [] [] None
  | run_report_throws s ss e log res :
      run_of im ss log res →
      run_of im (s :: ss)
        (Progress (progress s) (name s) (Throws e) :: log) res
  | run_decode_throws s ss e log res :
      run_of im ss log res →
      run_of im (s :: ss)
        (Progress (progress s) (name s) (Returns ()) ::
         Decode (data (fn s im)) (width (fn s im)) (height (fn s im))
           (Throws e) :: log) res
  | run_decode_nothing s ss log res :
      run_of im ss log res →
      run_of im (s :: ss)
        (Progress (progress s) (name s) (Returns ()) ::
         Decode (data (fn s im)) (width (fn s im)) (height (fn s im))
           (Returns None) :: log) res
  | run_decode_found s ss code :
      run_of im (s :: ss)
        [Progress (progress s) (name s) (Returns ());
         Decode (data (fn s im)) (width (fn s im)) (height (fn s im))
           (Returns (Some code))]
        (Some (mkQRResult (code_data code) (code_location code))).

(** In a run on [im] the decoder is given nothing but what a strategy
    makes of [im]. *)
Lemma run_of_decoded im ss log res :
  run_of im ss log res →
  ∀ pixels w h r, Decode pixels w h r ∈ log →
    ∃ s, s ∈ ss ∧ pixels = data (fn s im).
Proof.
  induction 1 as [| s ss e log res _ IH | s ss e log res _ IH
                  | s ss log res _ IH | s ss code]; intros px w h r Hin.
  - by apply elem_of_nil in Hin.
  - apply elem_of_cons in Hin as [Heq | Hin]; [done |].
    destruct (IH _ _ _ _ Hin) as (s' & Hs' & ->).
    exists s'. split; [by apply list_elem_of_further | done].
  - apply elem_of_cons in Hin as [Heq | Hin]; [done |].
    apply elem_of_cons in Hin as [Heq | Hin].
    + injection Heq as -> _ _ _. exists s. split; [apply list_elem_of_here | done].
    + destruct (IH _ _ _ _ Hin) as (s' & Hs' & ->).
      exists s'. split; [by apply list_elem_of_further | done].
  - apply elem_of_cons in Hin as [Heq | Hin]; [done |].
    apply elem_of_cons in Hin as [Heq | Hin].
    + injection Heq as -> _ _ _. exists s. split; [apply list_elem_of_here | done].
    + destruct (IH _ _ _ _ Hin) as (s' & Hs' & ->).
      exists s'. split; [by apply list_elem_of_further | done].
  - apply elem_of_cons in Hin as [Heq | Hin]; [done |].
    apply elem_of_cons in Hin as [Heq | Hin].
    + injection Heq as -> _ _ _. exists s. split; [apply list_elem_of_here | done].
    + by apply elem_of_nil in Hin.
Qed.

Lemma plain_logged {W} (log : list event) (s : heap W) :
  plain (logged log s) = s.
Proof. by destruct s. Qed.

Lemma current_logged {W} wd ht (log : list event) (s : heap W) :
  current wd ht (logged log s) = current wd ht s.
Proof. reflexivity. Qed.

Lemma current_original {W} (im : ImageData) (s : heap W) :
  source_bytes s = data im → current (width im) (height im) s = im.
Proof. unfold current. intros ->. by destruct im. Qed.

Lemma snd_logged {W} (log : list event) (s : heap W) :
  (world (logged log s)).2 = log.
Proof. reflexivity. Qed.

Lemma rec_pause_logged {W} (pause : heap W → heap W) log s :
  rec_pause pause (logged log s) = logged log (pause s).
Proof. unfold rec_pause. by rewrite plain_logged. Qed.

Lemma rec_console_warn_logged {W}
    (console_warn : string → exn → heap W → heap W) label e log s :
  rec_console_warn console_warn label e (logged log s) =
  logged log (console_warn label e s).
Proof. unfold rec_console_warn. by rewrite plain_logged. Qed.

Section Runs.
Context {W : Type}.
Variable onProgress : Z → string → heap W → heap W * completion unit.
Variable jsQR : list Z → Z → Z → heap W → heap W * completion (option QRCode).
Variable console_warn : string → exn → heap W → heap W.
Variable pause : heap W → heap W.

(** No collaborator writes to the bitmap that was passed in. *)
Hypothesis onProgress_reads : ∀ percent label s,
  source_bytes (onProgress percent label s).1 = source_bytes s.
Hypothesis jsQR_reads : ∀ pixels w h s,
  source_bytes (jsQR pixels w h s).1 = source_bytes s.
Hypothesis console_warn_reads : ∀ label e s,
  source_bytes (console_warn label e s) = source_bytes s.
Hypothesis pause_reads : ∀ s, source_bytes (pause s) = source_bytes s.

Let attempt_rec :=
  attempt (rec_onProgress onProgress) (rec_jsQR jsQR)
          (rec_console_warn console_warn) (rec_pause pause).

Let attempt_plain := attempt onProgress jsQR console_warn pause.

(** Recording changes neither the heap nor the result; what is recorded is
    a run on the bitmap as it was at the start, and the bitmap is the same
    at the end. *)
Lemma attempt_run ss im s pre :
  source_bytes s = data im →
  ∃ log,
    attempt_rec ss (width im) (height im) (logged pre s) =
      (logged (pre ++ log) (attempt_plain ss (width im) (height im) s).1,
       (attempt_plain ss (width im) (height im) s).2) ∧
    run_of im ss log (attempt_plain ss (width im) (height im) s).2 ∧
    source_bytes (attempt_plain ss (width im) (height im) s).1 = data im.
Proof.
  subst attempt_rec attempt_plain. revert s pre.
  induction ss as [| st ss IH]; intros s pre Hs; simpl.
  - exists []. rewrite app_nil_r. repeat split; [constructor | done].
  - unfold rec_onProgress at 1. rewrite plain_logged.
    pose proof (onProgress_reads (progress st) (name st) s) as Hp.
    destruct (onProgress (progress st) (name st) s) as [s1 [[] | e]];
      simpl in Hp; rewrite snd_logged.
    + rewrite !current_logged.
      rewrite (current_original im s1) by (by rewrite Hp).
      unfold rec_jsQR at 1. rewrite plain_logged.
      pose proof (jsQR_reads (data (fn st im)) (width (fn st im))
                    (height (fn st im)) s1) as Hd.
      destruct (jsQR (data (fn st im)) (width (fn st im))
                  (height (fn st im)) s1) as [s2 [[code |] | e]];
        simpl in Hd; rewrite snd_logged.
      * eexists. split; [| split; [apply run_decode_found | simpl; congruence]].
        by rewrite <- app_assoc.
      * rewrite rec_pause_logged.
        destruct (IH (pause s2)
          ((pre ++ [Progress (progress st) (name st) (Returns ())]) ++
           [Decode (data (fn st im)) (width (fn st im)) (height (fn st im))
              (Returns None)])) as (log & Heq & Hrun & Hkept).
        { rewrite pause_reads. congruence. }
        eexists. split; [| split; [by apply run_decode_nothing | done]].
        etrans; [exact Heq |]. by rewrite <- !app_assoc.
      * rewrite rec_console_warn_logged.
        destruct (IH (console_warn (name st) e s2)
          ((pre ++ [Progress (progress st) (name st) (Returns ())]) ++
           [Decode (data (fn st im)) (width (fn st im)) (height (fn st im))
              (Throws e)])) as (log & Heq & Hrun & Hkept).
        { rewrite console_warn_reads. congruence. }
        eexists. split; [| split; [by apply run_decode_throws | done]].
        etrans; [exact Heq |]. by rewrite <- !app_assoc.
    + rewrite rec_console_warn_logged.
      destruct (IH (console_warn (name st) e s1)
        (pre ++ [Progress (progress st) (name st) (Throws e)]))
        as (log & Heq & Hrun & Hkept).
      { rewrite console_warn_reads. congruence. }
      eexists. split; [| split; [by apply run_report_throws | done]].
      etrans; [exact Heq |]. by rewrite <- !app_assoc.
Qed.
End Runs.

(** The strategies, in the order they are tried. *)
Lemma strategies_in_order :
  name <$> processingStrategies =
    ["Direct Detection"; "Enhanced Contrast"; "Adaptive Histogram";
     "Binary Threshold"; "Sharpening"; "Color Inversion"; "Morphological"]%string ∧
  progress <$> processingStrategies = [65; 70; 75; 80; 85; 90; 95] ∧
  fn <$> processingStrategies =
    [(λ data, data); enhancedContrast; adaptiveHistogram; binaryThreshold;
     sharpening; colorInversion; morphological].
Proof. by repeat split. Qed.


(** Collaborators to run the pipeline with: a callback that returns, a
    decoder that finds a code in one given array of pixels only, a console
    and a pause in which nothing happens. *)
Definition no_location : Location :=
  mkLocation (mkPoint 0 0) (mkPoint 0 0) (mkPoint 0 0) (mkPoint 0 0).

Definition some_code : QRCode := mkQRCode [] [104%N; 105%N] no_location.

Definition quiet_progress (percent : Z) (label : string) (s : heap unit) :
    heap unit * completion unit := (s, Returns ()).

Definition decodes_only (good : list Z) (pixels : list Z) (w h : Z)
    (s : heap unit) : heap unit * completion (option QRCode) :=
  (s, Returns (if bool_decide (pixels = good) then Some some_code else None)).

Definition quiet_warn (label : string) (e : exn) (s : heap unit) :
    heap unit := s.

Definition quiet_pause (s : heap unit) : heap unit := s.


(** A progress callback that, when Contrast is announced, blackens the
    first pixel of the bitmap it shares with the pipeline:
    [if (progress === 70) { data[0] = 0; data[1] = 0; data[2] = 0 }]. *)
Definition writing_progress (percent : Z) (label : string) (s : heap unit) :
    heap unit * completion unit :=
  ((if percent =? 70
    then mkHeap (world s) (store (store (store (source_bytes s) 0 0) 1 0) 2 0)
    else s),
   Returns ()).

Definition blackened : ImageData :=
  mkImageData (store (store (store (data spot_4x3) 0 0) 1 0) 2 0) 4 3.

(** The pipeline run with a decoder that reads a code from Binary
    Threshold of the original bitmap and from nothing else, and with a
    given callback. *)
Definition run_with
    (onProgress : Z → string → heap unit → heap unit * completion unit) :
    heap (unit * list event) * completion (option QRResult) :=
  processImage (rec_onProgress onProgress)
    (rec_jsQR (decodes_only (data (binaryThreshold spot_4x3))))
    (rec_console_warn quiet_warn) (rec_pause quiet_pause)
    (mkCanvas (Some context2d)) spot_4x3 ((), []).


(** *** What holds whatever the collaborators do *)

(** The progress reports among the calls. *)
Definition reports (log : list event) : list (Z * string) :=
  omap (λ e, match e with
             | Progress percent label _ => Some (percent, label)
             | Decode _ _ _ _ => None
             end) log.

(** The arrays of pixels that the decoder was given. *)
Definition decoded (log : list event) : list (list Z) :=
  omap (λ e, match e with
             | Progress _ _ _ => None
             | Decode pixels _ _ _ => Some pixels
             end) log.

Definition announced (ss : list ProcessingStrategy) : list (Z * string) :=
  (λ s, (progress s, name s)) <$> ss.

Lemma reports_app l1 l2 : reports (l1 ++ l2) = reports l1 ++ reports l2.
Proof. apply omap_app. Qed.

Section AnyCollaborators.
Context {W : Type}.
Variable onProgress : Z → string → heap W → heap W * completion unit.
Variable jsQR : list Z → Z → Z → heap W → heap W * completion (option QRCode).
Variable console_warn : string → exn → heap W → heap W.
Variable pause : heap W → heap W.

Let attempt_rec :=
  attempt (rec_onProgress onProgress) (rec_jsQR jsQR)
          (rec_console_warn console_warn) (rec_pause pause).

(** The loop announces the strategies in order, each once, and stops at
    the first code: with no code found every strategy was announced, and a
    code that is returned is the one the last call, a decode, has found.  A
    strategy is decoded at most once, after it was announced. *)
Lemma attempt_reports ss wd ht s pre :
  ∃ s' log found,
    attempt_rec ss wd ht (logged pre s) = (logged (pre ++ log) s', found) ∧
    reports log `prefix_of` announced ss ∧
    (found = None → reports log = announced ss) ∧
    (∀ res, found = Some res →
       ∃ pixels w h code,
         last log = Some (Decode pixels w h (Returns (Some code))) ∧
         res = mkQRResult (code_data code) (code_location code)) ∧
    (length (decoded log) ≤ length (reports log))%nat.
Proof.
  subst attempt_rec. revert s pre.
  induction ss as [| st ss IH]; intros s pre; simpl.
  - exists s, [], None. rewrite app_nil_r. repeat split; try done.
  - unfold rec_onProgress at 1. rewrite plain_logged.
    destruct (onProgress (progress st) (name st) s) as [s1 [[] | e]];
      rewrite snd_logged.
    + rewrite !current_logged.
      set (im := fn st (current wd ht s1)).
      unfold rec_jsQR at 1. rewrite plain_logged.
      destruct (jsQR (data im) (width im) (height im) s1)
        as [s2 [[code |] | e]]; rewrite snd_logged.
      * exists s2,
          [Progress (progress st) (name st) (Returns ());
           Decode (data im) (width im) (height im) (Returns (Some code))],
          (Some (mkQRResult (code_data code) (code_location code))).
        split; [by rewrite <- app_assoc |].
        split; [by apply prefix_cons, prefix_nil |].
        split; [done |].
        split; [| by cbv].
        intros res [= <-]. by exists (data im), (width im), (height im), code.
      * rewrite rec_pause_logged.
        destruct (IH (pause s2)
          ((pre ++ [Progress (progress st) (name st) (Returns ())]) ++
           [Decode (data im) (width im) (height im) (Returns None)]))
          as (s' & log & found & Heq & Hpre & Hnone & Hsome & Hcount).
        exists s',
          (Progress (progress st) (name st) (Returns ()) ::
           Decode (data im) (width im) (height im) (Returns None) :: log),
          found.
        split; [by rewrite Heq, <- !app_assoc |].
        split; [by apply prefix_cons |].
        split; [by intros Hn; simpl; rewrite (Hnone Hn) |].
        split.
        -- intros res Hres.
           destruct (Hsome res Hres) as (px & w & h & code & Hlast & ->).
           exists px, w, h, code. split; [| done].
           destruct log as [| e0 log]; [done |]. exact Hlast.
        -- simpl. lia.
      * rewrite rec_console_warn_logged.
        destruct (IH (console_warn (name st) e s2)
          ((pre ++ [Progress (progress st) (name st) (Returns ())]) ++
           [Decode (data im) (width im) (height im) (Throws e)]))
          as (s' & log & found & Heq & Hpre & Hnone & Hsome & Hcount).
        exists s',
          (Progress (progress st) (name st) (Returns ()) ::
           Decode (data im) (width im) (height im) (Throws e) :: log),
          found.
        split; [by rewrite Heq, <- !app_assoc |].
        split; [by apply prefix_cons |].
        split; [by intros Hn; simpl; rewrite (Hnone Hn) |].
        split.
        -- intros res Hres.
           destruct (Hsome res Hres) as (px & w & h & code & Hlast & ->).
           exists px, w, h, code. split; [| done].
           destruct log as [| e0 log]; [done |]. exact Hlast.
        -- simpl. lia.
    + rewrite rec_console_warn_logged.
      destruct (IH (console_warn (name st) e s1)
        (pre ++ [Progress (progress st) (name st) (Throws e)]))
        as (s' & log & found & Heq & Hpre & Hnone & Hsome & Hcount).
      exists s', (Progress (progress st) (name st) (Throws e) :: log), found.
      split; [by rewrite Heq, <- !app_assoc |].
      split; [by apply prefix_cons |].
      split; [by intros Hn; simpl; rewrite (Hnone Hn) |].
      split.
      * intros res Hres.
        destruct (Hsome res Hres) as (px & w & h & code & Hlast & ->).
        exists px, w, h, code. split; [| done].
        destruct log as [| e0 log]; [done |]. exact Hlast.
      * simpl. lia.
Qed.
End AnyCollaborators.





(** *** validateFile *)

(** A file is accepted exactly when its type is one of the four image
    types and it has at most 10 MiB; an accepted file carries no error and
    a refused one always does; the type is looked at first, so that a file
    of another type is refused for its type whatever its size. *)
Theorem validateFile_accepts (file : File) :
  (isValid (validateFile file) = true ↔
     type file ∈ ["image/png"; "image/jpeg"; "image/jpg"; "image/gif"]%string ∧
     size file <= 10485760) ∧
  (isValid (validateFile file) = true ↔ error (validateFile file) = None) ∧
  (type file ∉ ["image/png"; "image/jpeg"; "image/jpg"; "image/gif"]%string →
     error (validateFile file) =
       Some "Invalid file type. Please use PNG, JPG, or GIF images."%string).
Proof.
  assert (existsb (String.eqb (type file)) allowedTypes = true ↔
          type file ∈ allowedTypes) as Hin.
  { rewrite existsb_exists. split.
    - intros (t & Ht & Heq). apply String.eqb_eq in Heq. subst t.
      by apply list_elem_of_In.
    - intros Ht. exists (type file). split; [by apply list_elem_of_In |].
      apply String.eqb_refl. }
  change ["image/png"; "image/jpeg"; "image/jpg"; "image/gif"]%string
    with allowedTypes.
  unfold validateFile.
  destruct (existsb (String.eqb (type file)) allowedTypes) eqn:Hex; simpl.
  - assert (type file ∈ allowedTypes) as Ht by by apply Hin.
    destruct (Z.gtb_spec (size file) maxSize) as [Hgt | Hle]; simpl;
      unfold maxSize in *.
    + split; [| split]; [split; [done | lia] | done | done].
    + split; [| split]; [split; [intros _; split; [done | lia] | done]
                         | done | done].
  - assert (type file ∉ allowedTypes) as Ht.
    { intros Ht. apply Hin in Ht. congruence. }
    split; [| split]; [split; [done | by intros [? _]] | done | done].
Qed.

End PipelineFacts.

(** ** Properties of the classifier and of the parsers *)

Module ContentFacts.
Import JSString RegExp ContentUtils.

(** *** What the matcher does on the shapes the patterns are made of *)

Lemma m_star_chr {R} p s caps (k : list N → captures → option R) :
  m (Star (Chr p)) s caps k =
  match s with
  | c :: s' =>
      if p c then
        match m (Star (Chr p)) s' caps k with
        | Some x => Some x
        | None => k s caps
        end
      else k s caps
  | [] => k s caps
  end.
Proof.
  destruct s as [| c s']; [done |]. simpl.
  destruct (p c); [| done].
  by rewrite (proj2 (Nat.ltb_lt (length s') (S (length s')))) by lia.
Qed.

(** A star over a class, followed by something that only accepts the end
    of the input, takes everything or fails. *)
Lemma m_star_chr_to_end {R} p s caps (k : list N → captures → option R) :
  (∀ c s' caps', k (c :: s') caps' = None) →
  m (Star (Chr p)) s caps k =
  if forallb p s then k [] caps else None.
Proof.
  intros Hend. induction s as [| c s IH]; rewrite m_star_chr; [done |].
  cbn [forallb]. destruct (p c); cbn [andb]; [| apply Hend].
  rewrite IH. destruct (forallb p s); [| apply Hend].
  destruct (k [] caps); [done | apply Hend].
Qed.

Lemma m_rep_chr {R} n p s caps (k : list N → captures → option R) :
  m (Rep n (Chr p)) s caps k =
  if (n <=? length s)%nat && forallb p (take n s)
  then k (drop n s) caps else None.
Proof.
  revert s. induction n as [| n IH]; intros s; simpl.
  - by rewrite drop_0.
  - destruct s as [| c s]; simpl; [done |].
    destruct (p c); simpl; [apply IH | by rewrite andb_false_r].
Qed.

Lemma m_at_least_to_end {R} n p s caps (k : list N → captures → option R) :
  (∀ c s' caps', k (c :: s') caps' = None) →
  m (AtLeast n (Chr p)) s caps k =
  if (n <=? length s)%nat && forallb p s then k [] caps else None.
Proof.
  intros Hend. unfold AtLeast. cbn [m]. rewrite m_rep_chr.
  assert (forallb p s = forallb p (take n s) && forallb p (drop n s)) as ->
    by (by rewrite <- forallb_app, take_drop).
  destruct (n <=? length s)%nat; cbn [andb]; [| done].
  destruct (forallb p (take n s)); cbn [andb]; [| done].
  by apply m_star_chr_to_end.
Qed.

(** *** The phone pattern *)

Definition strip_plus (t : list N) : list N :=
  match t with
  | c :: r => if is_char "+" c then r else t
  | [] => []
  end.

(** An optional [+], then ten or more characters, each a digit, white
    space, a hyphen or a parenthesis. *)
Definition phone_shaped (t : list N) : bool :=
  let body := strip_plus t in
  (10 <=? length body)%nat && forallb phone_class body.

Lemma test_phonePattern t : test phonePattern t = phone_shaped t.
Proof.
  unfold test, exec, phonePattern, match_here. cbn [anchored body groups].
  cbn [seq_of foldr]. unfold Opt. cbn [m].
  unfold phone_shaped, strip_plus.
  destruct t as [| c r].
  - by rewrite m_at_least_to_end by done.
  - destruct (is_char "+" c) eqn:Hplus.
    + rewrite (m_at_least_to_end 10 phone_class r) by done.
      destruct ((10 <=? length r)%nat && forallb phone_class r); [done |].
      rewrite (m_at_least_to_end 10 phone_class (c :: r)) by done.
      apply N.eqb_eq in Hplus. subst c.
      by rewrite andb_false_r.
    + rewrite (m_at_least_to_end 10 phone_class (c :: r)) by done.
      by destruct ((10 <=? length (c :: r))%nat && forallb phone_class (c :: r)).
Qed.

(** *** Platforms to run the classifier with *)

Definition lower_unit (c : N) : N :=
  if ((65 <=? c) && (c <=? 90))%N then (c + 32)%N else c.
Definition upper_unit (c : N) : N :=
  if ((97 <=? c) && (c <=? 122))%N then (c - 32)%N else c.

(** A string that starts with a scheme: a letter, then letters, digits,
    [+], [-] and [.], then a colon. *)
Definition is_scheme_char (c : N) : bool :=
  is_alnum c || is_char "+" c || is_char "-" c || is_char "." c.

Definition has_scheme (s : list N) : bool :=
  test (mkPattern true 0
          (seq_of [Chr is_alpha; Star (Chr is_scheme_char); Chr (is_char ":")]))
       s.

(** The platform as far as ASCII goes: the case mappings change the
    letters A-Z and a-z only, as [toLowerCase] and [toUpperCase] do on
    ASCII strings; [new URL(s)] is taken to succeed on the strings that
    start with a scheme (the platform's parser accepts most of these, and
    [ftp://example.com] and [https://example.com] among them). *)
Definition ascii_platform : Platform :=
  mkPlatform has_scheme (fmap lower_unit) (fmap upper_unit).

Definition is_ascii (s : list N) : Prop := Forall (λ c, (c < 128)%N) s.

(** A platform whose case mappings treat ASCII strings as every
    implementation of ECMAScript does. *)
Definition ascii_case (P : Platform) : Prop :=
  ∀ s, is_ascii s →
    toLowerCase P s = lower_unit <$> s ∧ toUpperCase P s = upper_unit <$> s.

Lemma ascii_case_ascii_platform : ascii_case ascii_platform.
Proof. by intros s _. Qed.

(** *** detectContentType *)

(** C2: the classifier gives every string, the empty one too, exactly one
    of the nine content types, whatever the platform's URL parser says;
    [mailto:a@b.com] is an email address, the empty string is empty, and
    [WIFI:T:WPA;S:Home;P:secret;H:false;] is a wifi credential. *)
Theorem classification_is_total (P : Platform) :
  (∀ s, ∃ t, detectContentType P s = t ∧
              ∀ t', detectContentType P s = t' → t' = t) ∧
  (∀ s, detectContentType P s ∈
        [vcard; url; email; phone; wifi; location; sms; text; empty]) ∧
  detectContentType P (js "mailto:a@b.com") = email ∧
  detectContentType P (js "") = empty ∧
  detectContentType P (js "WIFI:T:WPA;S:Home;P:secret;H:false;") = wifi.
Proof.
  split; [| split; [| by vm_compute]].
  - intros s. exists (detectContentType P s). split; [done | by intros t' <-].
  - intros s. destruct (detectContentType P s);
      repeat (first [apply list_elem_of_here | apply list_elem_of_further]).
Qed.

Lemma truthy_trim content : truthy (trim content) = true → truthy content = true.
Proof. by destruct content. Qed.

(** Strings of the phone alphabet do not start with [tel:]. *)
Lemma phone_alphabet_not_tel t :
  forallb phone_class (strip_plus t) = true → startsWith t (js "tel:") = false.
Proof.
  destruct t as [| c r]; [done |]. unfold strip_plus.
  destruct (is_char "+" c) eqn:Hplus.
  - apply N.eqb_eq in Hplus. by subst c.
  - cbn [forallb]. intros Hc. apply andb_prop in Hc as [Hc _].
    change (startsWith (c :: r) (js "tel:"))
      with ((116 =? c)%N && startsWith r (js "el:")).
    destruct (N.eqb_spec 116 c) as [<- | _]; [done | done].
Qed.

(** C3, as the code has it: for a string whose trimmed form [t] is not
    empty and is caught by none of the earlier rules (vCard, [WIFI:],
    [SMSTO:] and [sms:]), the classifier answers phone exactly when [t]
    starts with [tel:] or is an optional [+] followed by ten or more
    characters, each a digit, white space, a hyphen or a parenthesis; a
    string over that alphabet with fewer than ten characters after the
    optional [+] is not a phone number. *)
Theorem phone_rule (P : Platform) (content : list N) :
  let t := trim content in
  truthy t = true →
  startsWith t (js "BEGIN:VCARD") && includes t (js "END:VCARD") = false →
  startsWith t (js "WIFI:") = false →
  startsWith t (js "SMSTO:") || startsWith t (js "sms:") = false →
  (detectContentType P content = phone ↔
     startsWith t (js "tel:") = true ∨ phone_shaped t = true) ∧
  (forallb phone_class (strip_plus t) = true →
   (length (strip_plus t) < 10)%nat →
   detectContentType P content ≠ phone).
Proof.
  intros t Ht Hvcard Hwifi Hsms.
  assert (detectContentType P content = phone ↔
          startsWith t (js "tel:") = true ∨ phone_shaped t = true) as Hiff.
  { unfold detectContentType. fold t.
    rewrite (truthy_trim _ Ht), Ht. cbn [negb orb].
    rewrite Hvcard, Hwifi, Hsms, test_phonePattern.
    destruct (phone_shaped t), (startsWith t (js "tel:")); cbn [orb];
      try (split; [auto | done]).
    split; [| by intros [? | ?]].
    intros H.
    repeat match type of H with
           | context [if ?b then _ else _] => destruct b
           end; discriminate. }
  split; [exact Hiff |].
  intros Halpha Hshort Hphone. apply Hiff in Hphone as [Htel | Hshape].
  - by rewrite (phone_alphabet_not_tel t Halpha) in Htel.
  - unfold phone_shaped in Hshape. apply andb_prop in Hshape as [Hlen _].
    apply Nat.leb_le in Hlen. lia.
Qed.

Lemma phone_rule_witness :
  detectContentType ascii_platform (js "+49 (30) 1234-5678") = phone ∧
  phone_shaped (js "+49 (30) 1234-5678") = true.
Proof.
  destruct (phone_rule ascii_platform (js "+49 (30) 1234-5678"))
    as [Hiff _]; [done | done | done | done |].
  assert (phone_shaped (trim (js "+49 (30) 1234-5678")) = true) as Hshape
    by (by vm_compute).
  split; [apply Hiff; by right | by vm_compute].
Defined.

(** C3, as it is stated, fails: [(555) 1234] has ten characters of the
    phone alphabet but only seven digits, does not start with [tel:], is
    caught by no earlier rule, and is classified as a phone number. *)
Lemma seven_digits_make_a_phone_number :
  let s := js "(555) 1234" in
  detectContentType ascii_platform s = phone ∧
  trim s = s ∧
  startsWith s (js "BEGIN:VCARD") = false ∧
  startsWith s (js "WIFI:") = false ∧
  startsWith s (js "SMSTO:") = false ∧
  startsWith s (js "sms:") = false ∧
  startsWith s (js "tel:") = false ∧
  forallb phone_class s = true ∧
  length (filter (λ c, is_digit c = true) s) = 7%nat.
Proof. by vm_compute. Qed.

(** *** parseContent on web links *)

(** C8, as the code has it: for every payload classified as a web link the
    result has exactly two actions, an open action and then a copy action;
    the open action carries the payload itself when the payload starts
    with [http://] or [https://], and the payload with [https://] put in
    front otherwise; the copy action carries the payload. *)
Theorem web_link_actions (P : Platform) (content : list N) :
  detectContentType P content = url →
  ∃ parsed,
    parseContent P content = Parsed parsed ∧
    type parsed = url ∧
    actions parsed =
      [mkAction Open (js "Open Website")
         (if startsWith content (js "http://") ||
             startsWith content (js "https://")
          then content else js "https://" ++ content)
         (Some (js "external-link"));
       mkAction Copy (js "Copy URL") content (Some (js "clipboard"))].
Proof.
  intros Hurl. unfold parseContent. rewrite Hurl.
  eexists. split; [reflexivity |]. split; [done |]. cbn [actions].
  by destruct (startsWith content (js "http://")),
              (startsWith content (js "https://")).
Qed.

Lemma web_link_actions_witness :
  ∃ parsed,
    parseContent ascii_platform (js "www.example.com") = Parsed parsed ∧
    value <$> actions parsed =
      [js "https://www.example.com"; js "www.example.com"].
Proof.
  destruct (web_link_actions ascii_platform (js "www.example.com"))
    as (parsed & Hparsed & _ & Hactions); [by vm_compute |].
  exists parsed. split; [exact Hparsed |]. by rewrite Hactions.
Defined.

(** C8, as it is stated, fails: [ftp://example.com] has a scheme and is
    classified as a web link, and its open action carries
    [https://ftp://example.com], not the payload. *)
Lemma other_schemes_get_https_in_front :
  let s := js "ftp://example.com" in
  detectContentType ascii_platform s = url ∧
  has_scheme s = true ∧
  ∃ parsed,
    parseContent ascii_platform s = Parsed parsed ∧
    value <$> head (actions parsed) = Some (js "https://ftp://example.com").
Proof.
  split; [by vm_compute |]. split; [by vm_compute |].
  eexists. split; [by vm_compute | by vm_compute].
Qed.

(** *** ASCII strings stay ASCII *)

Lemma is_ascii_drop_spaces s : is_ascii s → is_ascii (drop_spaces s).
Proof.
  induction 1 as [| c s Hc Hs IH]; simpl; [constructor |].
  destruct (is_space c); [done | by constructor].
Qed.

Lemma is_ascii_trim s : is_ascii s → is_ascii (trim s).
Proof.
  intros Hs. unfold trim, is_ascii.
  by apply Forall_reverse, is_ascii_drop_spaces, Forall_reverse,
           is_ascii_drop_spaces.
Qed.

Lemma is_ascii_split s c : is_ascii s → Forall is_ascii (split s c).
Proof.
  induction 1 as [| d s Hd Hs IH]; simpl; [by repeat constructor |].
  destruct (split s c) as [| piece pieces]; [by repeat constructor |].
  apply Forall_cons in IH as [Hp Hps].
  destruct (d =? c)%N; repeat constructor; done.
Qed.

Lemma is_ascii_split_lines s : is_ascii s → Forall is_ascii (split_lines s).
Proof.
  induction 1 as [| d s Hd Hs IH]; simpl; [by repeat constructor |].
  destruct (split_lines s) as [| piece pieces]; [by repeat constructor |].
  apply Forall_cons in IH as [Hp Hps].
  destruct (d =? 10)%N; [by repeat constructor |].
  destruct ((d =? 13)%N && startsWith s [10%N]); repeat constructor; done.
Qed.

Lemma is_ascii_remove_first s p : is_ascii s → is_ascii (remove_first s p).
Proof.
  induction 1 as [| d s Hd Hs IH]; cbn [remove_first].
  - destruct (startsWith [] p); [apply Forall_drop |]; constructor.
  - destruct (startsWith (d :: s) p);
      [apply Forall_drop | ]; by constructor.
Qed.

Lemma is_ascii_js_default : is_ascii (js "default").
Proof. by repeat constructor. Qed.

(** *** parseVCard only sees the platform through ASCII strings when its
    input is ASCII *)

Lemma cleanType_ascii P Q typeParam :
  ascii_case P → ascii_case Q → is_ascii typeParam →
  cleanType P typeParam = cleanType Q typeParam.
Proof.
  intros HP HQ Ha. unfold cleanType.
  by rewrite (proj1 (HP _ Ha)), (proj1 (HQ _ Ha)).
Qed.

Lemma parse_line_ascii P Q contact line :
  ascii_case P → ascii_case Q → is_ascii line →
  parse_line P contact line = parse_line Q contact line.
Proof.
  intros HP HQ Ha. unfold parse_line.
  set (fieldPart := substring line 0 (indexOf line (code ":"))).
  assert (is_ascii fieldPart) as Hfp
    by (by apply Forall_take, Forall_drop).
  pose proof (is_ascii_split fieldPart (code ";") Hfp) as Hpieces.
  set (pieces := split fieldPart (code ";")) in *.
  assert (is_ascii (default [] (head pieces))) as Hfield.
  { destruct pieces as [| f ps]; [constructor |].
    by apply Forall_cons in Hpieces as [? _]. }
  assert (Forall is_ascii (tail pieces)) as Hparams.
  { destruct pieces as [| f ps]; [constructor |].
    by apply Forall_cons in Hpieces as [_ ?]. }
  set (typeParam := match find _ (tail pieces) with
                    | Some p => _ | None => _ end).
  assert (is_ascii typeParam) as Htp.
  { subst typeParam.
    destruct (find _ (tail pieces)) as [p |] eqn:Hfind;
      [| apply is_ascii_js_default].
    apply find_some in Hfind as [Hin _].
    apply list_elem_of_In in Hin.
    pose proof (proj1 (Forall_forall _ _) Hparams p Hin) as Hp.
    destruct (truthy (remove_first p (js "TYPE=")));
      [by apply is_ascii_remove_first | apply is_ascii_js_default]. }
  rewrite (proj2 (HP _ Hfield)), (proj2 (HQ _ Hfield)).
  rewrite (proj1 (HP _ Hfield)), (proj1 (HQ _ Hfield)).
  rewrite (proj1 (HP _ Htp)), (proj1 (HQ _ Htp)).
  by rewrite (cleanType_ascii P Q typeParam HP HQ Htp).
Qed.

Lemma parseVCard_ascii P Q vcardString :
  ascii_case P → ascii_case Q → is_ascii vcardString →
  parseVCard P vcardString = parseVCard Q vcardString.
Proof.
  intros HP HQ Ha. unfold parseVCard.
  assert (Forall is_ascii
            (filter (λ line, (0 < length line)%nat)
               (trim <$> split_lines vcardString))) as Hlines.
  { apply Forall_forall. intros line Hin.
    apply list_elem_of_filter in Hin as [_ Hin].
    apply list_elem_of_fmap in Hin as (raw & -> & Hraw).
    apply is_ascii_trim.
    by apply (proj1 (Forall_forall _ _) (is_ascii_split_lines _ Ha)). }
  generalize empty_contact.
  induction Hlines as [| line lines Hline _ IH]; intros contact; [done |].
  simpl. rewrite (parse_line_ascii P Q contact line HP HQ Hline). apply IH.
Qed.

(** *** vCard phone entries *)

Lemma is_ascii_check s : forallb (λ c, (c <? 128)%N) s = true → is_ascii s.
Proof.
  intros Hs. apply Forall_forall. intros c Hc.
  apply list_elem_of_In in Hc.
  apply N.ltb_lt. by apply (proj1 (forallb_forall _ _) Hs).
Qed.

Definition line_feed : list N := [10%N].

(** [BEGIN:VCARD\nFN:Jane Doe\nTEL;TYPE=CELL:555-1234\nEND:VCARD] *)
Definition jane_doe : list N :=
  js "BEGIN:VCARD" ++ line_feed ++ js "FN:Jane Doe" ++ line_feed ++
  js "TEL;TYPE=CELL:555-1234" ++ line_feed ++ js "END:VCARD".

(** The type of a phone entry whose [TYPE] parameter is [typeParam]: the
    lowercased parameter is searched for [cell] or [mobile], then [work],
    [home] and [fax]; when none occurs, the type is what stands before the
    first comma of the lowercased parameter, trimmed. *)
Definition tel_type (P : Platform) (typeParam : list N) : list N :=
  let lowered := toLowerCase P typeParam in
  if includes lowered (js "cell") || includes lowered (js "mobile")
  then js "mobile"
  else if includes lowered (js "work") then js "work"
  else if includes lowered (js "home") then js "home"
  else if includes lowered (js "fax") then js "fax"
  else trim (default [] (head (split lowered (code ",")))).

Definition with_phone (contact : VCardContact) (entry : TypedValue)
    : VCardContact :=
  mkContact (name contact) (emails contact) (push (phones contact) entry)
    (organization contact) (addresses contact) (urls contact)
    (notes contact) (unmappedFields contact).

Lemma indexOf_app fieldPart c rest :
  c ∉ fieldPart →
  indexOf (fieldPart ++ c :: rest) c = Z.of_nat (length fieldPart).
Proof.
  induction fieldPart as [| d fp IH]; intros Hnot; simpl.
  - by rewrite N.eqb_refl.
  - apply not_elem_of_cons in Hnot as [Hne Hnot].
    destruct (N.eqb_spec d c) as [-> | _]; [done |].
    rewrite (IH Hnot).
    destruct (Z.ltb_spec (Z.of_nat (length fp)) 0); lia.
Qed.

Lemma remove_first_prefix p rest : remove_first (p ++ rest) p = rest.
Proof.
  assert (startsWith (p ++ rest) p = true) as Hp.
  { induction p as [| c p IH]; [by destruct rest |]. simpl.
    by rewrite N.eqb_refl. }
  destruct p as [| c p]; [by destruct rest |].
  cbn [remove_first app] in *. rewrite Hp.
  exact (drop_app_length (c :: p) rest).
Qed.

(** C7, as the code has it.  On a platform whose case mappings treat ASCII
    as usual, parsing the Jane Doe card gives the formatted name
    [Jane Doe] and the single phone entry ([mobile], [555-1234]), and the
    first action of the parsed result is a call action with value
    [555-1234].  On every platform, a line whose field name is [TEL] in
    upper case and whose first [TYPE=] parameter has the non-empty value
    [typeParam] appends the entry ([tel_type typeParam], value) to the
    phones and changes nothing else. *)
Theorem vcard_phone_entries (P : Platform) :
  ascii_case P →
  ((name (parseVCard P jane_doe) ≫= formatted) = Some (js "Jane Doe") ∧
   phones (parseVCard P jane_doe) =
     Some [mkTyped (js "mobile") (js "555-1234")] ∧
   ∃ parsed first,
     parseContent P jane_doe = Parsed parsed ∧
     head (actions parsed) = Some first ∧
     action_type first = Call ∧ value first = js "555-1234") ∧
  (∀ contact fieldPart value typeParam,
     let line := fieldPart ++ code ":" :: value in
     code ":" ∉ fieldPart →
     startsWith line (js "BEGIN:") || startsWith line (js "END:")
       || startsWith line (js "VERSION:") = false →
     toUpperCase P (default [] (head (split fieldPart (code ";")))) = js "TEL" →
     find (λ p, startsWith p (js "TYPE=")) (tail (split fieldPart (code ";")))
       = Some (js "TYPE=" ++ typeParam) →
     typeParam ≠ [] →
     parse_line P contact line =
       with_phone contact (mkTyped (tel_type P typeParam) value)).
Proof.
  intros HP.
  assert (is_ascii jane_doe) as Hjane by (by apply is_ascii_check).
  split.
  - rewrite (parseVCard_ascii P ascii_platform jane_doe HP
               ascii_case_ascii_platform Hjane).
    split; [by vm_compute |]. split; [by vm_compute |].
    unfold parseContent.
    assert (detectContentType P jane_doe = vcard) as -> by (by vm_compute).
    rewrite (parseVCard_ascii P ascii_platform jane_doe HP
               ascii_case_ascii_platform Hjane).
    eexists _, _. split; [reflexivity |]. by vm_compute.
  - intros contact fieldPart value typeParam line Hcolon Hskip Hfield Hfind Hne.
    subst line. unfold parse_line. rewrite Hskip.
    rewrite (indexOf_app fieldPart (code ":") value Hcolon).
    destruct (Z.eqb_spec (Z.of_nat (length fieldPart)) (-1)) as [? | _]; [lia |].
    assert (substring (fieldPart ++ code ":" :: value) 0
              (Z.of_nat (length fieldPart)) = fieldPart) as ->.
    { unfold substring. change (Z.to_nat 0) with 0%nat.
      rewrite Nat2Z.id, Nat.sub_0_r, drop_0. apply take_app_length. }
    assert (substring_from (fieldPart ++ code ":" :: value)
              (Z.of_nat (length fieldPart) + 1) = value) as ->.
    { unfold substring_from.
      replace (Z.to_nat (Z.of_nat (length fieldPart) + 1))
        with (length fieldPart + 1)%nat by lia.
      by rewrite <- drop_drop, drop_app_length. }
    rewrite Hfind, Hfield, (remove_first_prefix (js "TYPE=") typeParam).
    destruct typeParam as [| c tp]; [done |].
    cbn [truthy]. by vm_compute (bool_decide _).
Qed.

Lemma vcard_phone_entries_witness :
  ascii_case ascii_platform ∧
  parse_line ascii_platform empty_contact (js "TEL;TYPE=VOICE,pref:88") =
    with_phone empty_contact (mkTyped (js "voice") (js "88")).
Proof.
  split; [exact ascii_case_ascii_platform |].
  destruct (vcard_phone_entries ascii_platform ascii_case_ascii_platform)
    as [_ Hline].
  assert (code ":" ∉ js "TEL;TYPE=VOICE,pref") as Hcolon.
  { apply (bool_decide_eq_true_1 _). by vm_compute. }
  assert (js "VOICE,pref" ≠ []) as Hne by done.
  exact (Hline empty_contact (js "TEL;TYPE=VOICE,pref") (js "88")
           (js "VOICE,pref") Hcolon eq_refl eq_refl eq_refl Hne).
Defined.

(** C7, as it is stated, fails in its general part: the fallback type is
    taken from the lowercased parameter, not from the raw one ([VOICE]
    gives [voice]), and an entry without a [TYPE] parameter gets the type
    [default], not [phone]. *)
Lemma tel_type_is_lowercased_or_default :
  phones (parseVCard ascii_platform
            (js "BEGIN:VCARD" ++ line_feed ++ js "TEL;TYPE=VOICE:555" ++
             line_feed ++ js "TEL:777" ++ line_feed ++ js "END:VCARD")) =
  Some [mkTyped (js "voice") (js "555"); mkTyped (js "default") (js "777")].
Proof. by vm_compute. Qed.

(** *** White space around the payload *)

Lemma drop_spaces_spaces l s :
  forallb is_space l = true → drop_spaces (l ++ s) = drop_spaces s.
Proof.
  induction l as [| c l IH]; [done |]. simpl.
  intros H. apply andb_prop in H as [-> H]. by apply IH.
Qed.

Lemma drop_spaces_all l : forallb is_space l = true → drop_spaces l = [].
Proof.
  intros H. rewrite <- (app_nil_r l). by rewrite drop_spaces_spaces.
Qed.

(** What is left starts with a character that is no white space. *)
Lemma drop_spaces_head s c r : drop_spaces s = c :: r → is_space c = false.
Proof.
  induction s as [| d s IH]; [done |]. simpl.
  destruct (is_space d) eqn:Hd; [done |]. by intros [= <- _].
Qed.

Lemma drop_spaces_fixed c r : is_space c = false → drop_spaces (c :: r) = c :: r.
Proof. simpl. by intros ->. Qed.

Lemma drop_spaces_app s r :
  drop_spaces s ≠ [] → drop_spaces (s ++ r) = drop_spaces s ++ r.
Proof.
  induction s as [| d s IH]; [done |]. simpl.
  destruct (is_space d); [done | done].
Qed.

Lemma forallb_is_space_reverse l :
  forallb is_space l = true → forallb is_space (reverse l) = true.
Proof.
  rewrite !forallb_forall. intros H c Hc. apply H.
  apply list_elem_of_In, elem_of_reverse. by apply list_elem_of_In.
Qed.

(** White space before and after a string is trimmed away with the white
    space the string itself starts and ends with. *)
Lemma trim_padded l s r :
  forallb is_space l = true → forallb is_space r = true →
  trim (l ++ s ++ r) = trim s.
Proof.
  intros Hl Hr. unfold trim. rewrite (drop_spaces_spaces l) by done.
  destruct (drop_spaces s) as [| c t] eqn:Hs.
  - assert (forallb is_space s = true) as Hall.
    { clear -Hs. induction s as [| d s IH]; [done |]. simpl in *.
      destruct (is_space d); [by apply IH | done]. }
    rewrite (drop_spaces_all (s ++ r)); [done |].
    rewrite forallb_app. by rewrite Hall, Hr.
  - rewrite drop_spaces_app by by rewrite Hs.
    rewrite Hs, reverse_app.
    by rewrite drop_spaces_spaces by by apply forallb_is_space_reverse.
Qed.

Lemma trim_idempotent s : trim (trim s) = trim s.
Proof.
  unfold trim.
  destruct (drop_spaces (reverse (drop_spaces s))) as [| c u] eqn:Hu;
    [done |].
  assert (drop_spaces (reverse (c :: u)) = reverse (c :: u)) as ->.
  { destruct (drop_spaces s) as [| d t] eqn:Ht; [done |].
    pose proof (drop_spaces_head _ _ _ Ht) as Hd.
    assert (∃ pre, reverse (d :: t) = pre ++ c :: u) as [pre Hpre].
    { clear -Hu. generalize dependent (reverse (d :: t)). intros v.
      induction v as [| e v IH]; [done |]. simpl.
      destruct (is_space e).
      - intros H. destruct (IH H) as [pre ->]. by exists (e :: pre).
      - intros <-. by exists []. }
    apply (f_equal reverse) in Hpre.
    rewrite reverse_involutive, reverse_app in Hpre.
    destruct (reverse (c :: u)) as [| e v] eqn:Hrev.
    - done.
    - simpl in Hpre. injection Hpre as <- _. by apply drop_spaces_fixed. }
  rewrite reverse_involutive.
  rewrite <- Hu at 1.
  assert (∀ v, drop_spaces (drop_spaces v) = drop_spaces v) as Hidem.
  { intros v. destruct (drop_spaces v) as [| e w] eqn:Hv; [done |].
    apply drop_spaces_fixed. by apply (drop_spaces_head _ _ _ Hv). }
  by rewrite Hidem, Hu.
Qed.

(** The classifier looks at the trimmed payload only. *)
Lemma detectContentType_by_trim P a b :
  trim a = trim b → detectContentType P a = detectContentType P b.
Proof.
  intros Heq. unfold detectContentType. rewrite <- Heq.
  destruct (truthy (trim a)) eqn:Ht.
  - rewrite (truthy_trim a Ht).
    assert (truthy b = true) as -> by (apply truthy_trim; by rewrite <- Heq).
    done.
  - by rewrite !orb_true_r.
Qed.

(** The classifier ignores white space before and after the payload, the
    trimmed payload is classified as the payload, and a payload is empty
    exactly when nothing is left of it after trimming. *)
Theorem detectContentType_ignores_white_space (P : Platform)
    (l content r : list N) :
  forallb is_space l = true → forallb is_space r = true →
  detectContentType P (l ++ content ++ r) = detectContentType P content ∧
  detectContentType P (trim content) = detectContentType P content ∧
  (detectContentType P content = empty ↔ trim content = []).
Proof.
  intros Hl Hr. split; [| split].
  - apply detectContentType_by_trim. by apply trim_padded.
  - apply detectContentType_by_trim, trim_idempotent.
  - unfold detectContentType.
    destruct (truthy (trim content)) eqn:Ht.
    + rewrite (truthy_trim content Ht). simpl.
      split; [| by intros H; rewrite H in Ht].
      repeat case_match; done.
    + rewrite orb_true_r. split; [| done]. intros _.
      by destruct (trim content).
Qed.

Lemma detectContentType_ignores_white_space_witness :
  detectContentType ascii_platform (js "  tel:123 ") =
  detectContentType ascii_platform (js "tel:123").
Proof.
  exact (proj1 (detectContentType_ignores_white_space ascii_platform
                  (js "  ") (js "tel:123") (js " ") eq_refl eq_refl)).
Defined.

(** *** Prefixes *)

(** Two prefixes of one string start with the same character. *)
Lemma startsWith_same_head s c p d q :
  startsWith s (c :: p) = true → startsWith s (d :: q) = true → c = d.
Proof.
  destruct s as [| e s]; [done |]. simpl.
  intros H1 H2. apply andb_prop in H1 as [H1 _]. apply andb_prop in H2 as [H2 _].
  apply N.eqb_eq in H1, H2. congruence.
Qed.

Lemma startsWith_truthy s c p : startsWith s (c :: p) = true → truthy s = true.
Proof. by destruct s. Qed.

(** A string that starts with a letter is not phone-shaped. *)
Lemma letter_not_phone_shaped s c p :
  startsWith s (c :: p) = true → is_char "+" c = false →
  phone_class c = false → phone_shaped s = false.
Proof.
  destruct s as [| e s]; [done |]. simpl.
  intros H Hplus Hclass. apply andb_prop in H as [H _].
  apply N.eqb_eq in H. subst e.
  unfold phone_shaped, strip_plus. rewrite Hplus. cbn [forallb].
  rewrite Hclass. apply andb_false_r.
Qed.

(** The prefixes the classifier looks for decide the type, each before
    any of the patterns is tried: [WIFI:] makes a wifi credential,
    [SMSTO:] and [sms:] a text message, [tel:] a phone number and
    [mailto:] an email address, whatever follows. *)
Theorem prefixes_decide (P : Platform) (content : list N) :
  let t := trim content in
  (startsWith t (js "WIFI:") = true → detectContentType P content = wifi) ∧
  (startsWith t (js "SMSTO:") = true → detectContentType P content = sms) ∧
  (startsWith t (js "sms:") = true → detectContentType P content = sms) ∧
  (startsWith t (js "tel:") = true → detectContentType P content = phone) ∧
  (startsWith t (js "mailto:") = true → detectContentType P content = email).
Proof.
  intros t.
  assert (∀ c p, startsWith t (c :: p) = true →
            detectContentType P content =
            if startsWith t (js "BEGIN:VCARD") && includes t (js "END:VCARD")
            then vcard
            else if startsWith t (js "WIFI:") then wifi
            else if startsWith t (js "SMSTO:") || startsWith t (js "sms:")
            then sms
            else if test phonePattern t || startsWith t (js "tel:")
            then phone
            else if test emailPattern t || startsWith t (js "mailto:")
            then email
            else if test geoPattern t then location
            else if URL_canParse P t then url
            else if test urlPattern t then url
            else text) as Hcascade.
  { intros c p Hp. unfold detectContentType. fold t.
    rewrite (startsWith_truthy _ _ _ Hp).
    by rewrite (truthy_trim content (startsWith_truthy _ _ _ Hp)). }
  assert (∀ c p d q, startsWith t (c :: p) = true → c ≠ d →
            startsWith t (d :: q) = false) as Hother.
  { intros c p d q Hc Hne. destruct (startsWith t (d :: q)) eqn:Hd; [| done].
    by destruct (Hne (startsWith_same_head _ _ _ _ _ Hc Hd)). }
  repeat split; intros Hp; rewrite (Hcascade _ _ Hp).
  - assert (startsWith t (js "BEGIN:VCARD") = false) as ->
      by exact (Hother _ _ (code "B") (js "EGIN:VCARD") Hp ltac:(done)).
    by rewrite Hp.
  - assert (startsWith t (js "BEGIN:VCARD") = false) as ->
      by exact (Hother _ _ (code "B") (js "EGIN:VCARD") Hp ltac:(done)).
    assert (startsWith t (js "WIFI:") = false) as ->
      by exact (Hother _ _ (code "W") (js "IFI:") Hp ltac:(done)).
    by rewrite Hp.
  - assert (startsWith t (js "BEGIN:VCARD") = false) as ->
      by exact (Hother _ _ (code "B") (js "EGIN:VCARD") Hp ltac:(done)).
    assert (startsWith t (js "WIFI:") = false) as ->
      by exact (Hother _ _ (code "W") (js "IFI:") Hp ltac:(done)).
    by rewrite Hp, orb_true_r.
  - assert (startsWith t (js "BEGIN:VCARD") = false) as ->
      by exact (Hother _ _ (code "B") (js "EGIN:VCARD") Hp ltac:(done)).
    assert (startsWith t (js "WIFI:") = false) as ->
      by exact (Hother _ _ (code "W") (js "IFI:") Hp ltac:(done)).
    assert (startsWith t (js "SMSTO:") = false) as ->
      by exact (Hother _ _ (code "S") (js "MSTO:") Hp ltac:(done)).
    assert (startsWith t (js "sms:") = false) as ->
      by exact (Hother _ _ (code "s") (js "ms:") Hp ltac:(done)).
    by rewrite Hp, orb_true_r.
  - assert (startsWith t (js "BEGIN:VCARD") = false) as ->
      by exact (Hother _ _ (code "B") (js "EGIN:VCARD") Hp ltac:(done)).
    assert (startsWith t (js "WIFI:") = false) as ->
      by exact (Hother _ _ (code "W") (js "IFI:") Hp ltac:(done)).
    assert (startsWith t (js "SMSTO:") = false) as ->
      by exact (Hother _ _ (code "S") (js "MSTO:") Hp ltac:(done)).
    assert (startsWith t (js "sms:") = false) as ->
      by exact (Hother _ _ (code "s") (js "ms:") Hp ltac:(done)).
    assert (startsWith t (js "tel:") = false) as ->
      by exact (Hother _ _ (code "t") (js "el:") Hp ltac:(done)).
    rewrite test_phonePattern.
    rewrite (letter_not_phone_shaped _ _ _ Hp) by done.
    by rewrite Hp, orb_true_r.
Qed.

Lemma prefixes_decide_witness :
  detectContentType ascii_platform (js "mailto:+1 (555) 123-4567") = email.
Proof.
  destruct (prefixes_decide ascii_platform (js "mailto:+1 (555) 123-4567"))
    as (_ & _ & _ & _ & Hmail).
  apply Hmail. reflexivity.
Defined.

(** *** What parseContent returns *)



(** *** The lists of a contact *)

(** A list of the contact is absent or holds an entry. *)
Definition filled {A} (l : option (list A)) : Prop := l ≠ Some [].

Lemma filled_push {A} (l : option (list A)) (x : A) : filled (push l x).
Proof. unfold filled, push. by destruct (default [] l). Qed.

Lemma parse_line_filled P contact line :
  filled (emails contact) ∧ filled (phones contact) ∧
  filled (addresses contact) ∧ filled (urls contact) →
  filled (emails (parse_line P contact line)) ∧
  filled (phones (parse_line P contact line)) ∧
  filled (addresses (parse_line P contact line)) ∧
  filled (urls (parse_line P contact line)).
Proof.
  intros (He & Hp & Ha & Hu). unfold parse_line. cbv zeta.
  repeat (match goal with
          | |- context [if ?b then _ else _] => destruct b
          end);
    cbn [emails phones addresses urls];
    repeat split; try done; apply filled_push.
Qed.

(** [parseVCard] creates the lists of emails, phones, addresses and urls
    with their first entry: in the contact it returns each of them is
    absent or holds at least one entry. *)
Theorem parseVCard_lists (P : Platform) (vcardString : list N) :
  let contact := parseVCard P vcardString in
  filled (emails contact) ∧ filled (phones contact) ∧
  filled (addresses contact) ∧ filled (urls contact).
Proof.
  unfold parseVCard.
  generalize (filter (λ line, (0 < length line)%nat)
                (trim <$> split_lines vcardString)).
  intros lines.
  assert (filled (emails empty_contact) ∧ filled (phones empty_contact) ∧
          filled (addresses empty_contact) ∧ filled (urls empty_contact))
    as Hempty by done.
  revert Hempty. generalize empty_contact.
  induction lines as [| line lines IH]; intros contact Hc; [done |].
  simpl. apply IH. by apply parse_line_filled.
Qed.

End ContentFacts.
